(** * Doris cloud backend: memory-tracked cache values and cloud configuration

  Shallow embedding of
    - be/src/runtime/memory/lru_cache_value_base.h  (LRUCacheValueBase)
    - be/src/cloud/config.cpp                       (the cloud config table)
  together with models, written from the design document, of the
  collaborators whose code lives elsewhere (memory trackers, the
  meta-service client, the lease protocol and the connection pool). *)

From Stdlib Require Import ZArith NArith List Lia Bool Ascii String.
From stdpp Require Import base option gmap strings list fin_maps.

Local Open Scope Z_scope.

(* ===================================================================== *)
(** ** Memory trackers *)
(* ===================================================================== *)

Module MemTracker.

(** Trackers are heap objects shared between cache values through
    [std::shared_ptr]; a tracker is named by its identity.  The entry
    tracker ([MemTrackerLimiter]) and the value tracker ([MemTracker])
    live in one name space, so that two pointers may alias. *)
Definition tracker_id := nat.

(** One call made on a tracker, with its [size_t] argument. *)
Inductive TrackerCall :=
| Consume (t : tracker_id) (bytes : N)
| Release (t : tracker_id) (bytes : N).

(** The calls made so far, most recent first. *)
Definition Trace := list TrackerCall.

Definition delta (t : tracker_id) (c : TrackerCall) : Z :=
  match c with
  | Consume t' b => if decide (t' = t) then Z.of_N b else 0
  | Release t' b => if decide (t' = t) then - Z.of_N b else 0
  end.

(** Modelled from the spec: [MemTracker] and [MemTrackerLimiter]
    (runtime/memory/mem_tracker_limiter.h) are outside the
    embedded sources.  "A node's consumed bytes equals the sum of bytes explicitly
    consumed by it minus explicitly released"; consume and release have no
    other effect and never fail. *)
Fixpoint consumption (t : tracker_id) (tr : Trace) : Z :=
  match tr with
  | [] => 0
  | c :: tr' => consumption t tr' + delta t c
  end.

(** The consumption of [t] was non-negative after every call of the trace. *)
Fixpoint never_negative (t : tracker_id) (tr : Trace) : Prop :=
  match tr with
  | [] => True
  | _ :: tr' => 0 <= consumption t tr /\ never_negative t tr'
  end.

(** [p->consume(bytes)] through a shared pointer [p]; dereferencing a null
    pointer has no defined behaviour. *)
Definition consume (p : option tracker_id) (bytes : N) (tr : Trace)
  : option Trace :=
  t ← p; Some (Consume t bytes :: tr).

Definition release (p : option tracker_id) (bytes : N) (tr : Trace)
  : option Trace :=
  t ← p; Some (Release t bytes :: tr).

(** The arguments of the consume calls of a trace, and of its release
    calls. *)
Definition consumed (tr : Trace) : list (tracker_id * N) :=
  omap (fun c => match c with
                 | Consume t b => Some (t, b)
                 | Release _ _ => None
                 end) tr.

Definition released (tr : Trace) : list (tracker_id * N) :=
  omap (fun c => match c with
                 | Release t b => Some (t, b)
                 | Consume _ _ => None
                 end) tr.

End MemTracker.

(* ===================================================================== *)
(** ** runtime/memory/lru_cache_value_base.h *)
(* ===================================================================== *)

Module LRUCacheValue.
Import MemTracker.

(** The data members of [class LRUCacheValueBase].  [size_t] members are
    only assigned and compared with zero, never computed with. *)
Record LRUCacheValueBase := {
  _tracking_bytes : N;
  _value_tracking_bytes : N;
  _mem_tracker : option tracker_id;
  _value_mem_tracker : option tracker_id;
}.

(** Default member initialisers: both counts zero, both pointers null. *)
Definition new_value : LRUCacheValueBase :=
  {| _tracking_bytes := 0; _value_tracking_bytes := 0;
     _mem_tracker := None; _value_mem_tracker := None |}.

(** [LRUCacheValueBase::set_tracking_bytes]. *)
Definition set_tracking_bytes
    (tracking_bytes : N) (mem_tracker : option tracker_id)
    (value_tracking_bytes : N) (value_mem_tracker : option tracker_id)
    (this : LRUCacheValueBase) (tr : Trace)
  : option (LRUCacheValueBase * Trace) :=
  let this := {| _tracking_bytes := tracking_bytes;
                 _value_tracking_bytes := value_tracking_bytes;
                 _mem_tracker := mem_tracker;
                 _value_mem_tracker := value_mem_tracker |} in
  tr1 ← consume (_mem_tracker this) (_tracking_bytes this) tr;
  tr2 ← consume (_value_mem_tracker this) (_value_tracking_bytes this) tr1;
  Some (this, tr2).

(** [LRUCacheValueBase::~LRUCacheValueBase]. *)
Definition destroy (this : LRUCacheValueBase) (tr : Trace) : option Trace :=
  if (0 <? _tracking_bytes this)%N then
    tr1 ← release (_mem_tracker this) (_tracking_bytes this) tr;
    release (_value_mem_tracker this) (_value_tracking_bytes this) tr1
  else Some tr.

(** *** Object lifetimes *)

Definition entry_id := nat.

Record Heap := {
  live : gmap entry_id LRUCacheValueBase;
  trace : Trace;
}.

Inductive Op :=
| Construct (e : entry_id)
| SetTrackingBytes (e : entry_id)
    (tracking_bytes : N) (mem_tracker : option tracker_id)
    (value_tracking_bytes : N) (value_mem_tracker : option tracker_id)
| Destroy (e : entry_id).

Definition step (o : Op) (h : Heap) : option Heap :=
  match o with
  | Construct e =>
      match live h !! e with
      | Some _ => None
      | None => Some {| live := <[e := new_value]> (live h); trace := trace h |}
      end
  | SetTrackingBytes e tb mt vtb vmt =>
      this ← live h !! e;
      '(this', tr') ← set_tracking_bytes tb mt vtb vmt this (trace h);
      Some {| live := <[e := this']> (live h); trace := tr' |}
  | Destroy e =>
      this ← live h !! e;
      tr' ← destroy this (trace h);
      Some {| live := delete e (live h); trace := tr' |}
  end.

Fixpoint run (ops : list Op) (h : Heap) : option Heap :=
  match ops with
  | [] => Some h
  | o :: ops' => h' ← step o h; run ops' h'
  end.

(** Cache-level events: an insertion constructs the value and calls
    [set_tracking_bytes] on it once; an eviction destroys it. *)
Inductive CacheOp :=
| Insert (e : entry_id)
    (tracking_bytes : N) (mem_tracker : tracker_id)
    (value_tracking_bytes : N) (value_mem_tracker : tracker_id)
| Evict (e : entry_id).

Definition ops_of (c : CacheOp) : list Op :=
  match c with
  | Insert e tb mt vtb vmt =>
      [Construct e; SetTrackingBytes e tb (Some mt) vtb (Some vmt)]
  | Evict e => [Destroy e]
  end.

Definition run_cache (cs : list CacheOp) (h : Heap) : option Heap :=
  run (concat (map ops_of cs)) h.

Definition positive_tracking (c : CacheOp) : Prop :=
  match c with
  | Insert _ tb _ _ _ => (0 < tb)%N
  | Evict _ => True
  end.

(** What the destructor of [this] will release on tracker [t]. *)
Definition releasable (t : tracker_id) (this : LRUCacheValueBase) : Z :=
  if (0 <? _tracking_bytes this)%N then
    (if decide (_mem_tracker this = Some t)
     then Z.of_N (_tracking_bytes this) else 0)
    + (if decide (_value_mem_tracker this = Some t)
       then Z.of_N (_value_tracking_bytes this) else 0)
  else 0.

Definition owed (t : tracker_id) (m : gmap entry_id LRUCacheValueBase) : Z :=
  map_fold (fun _ this acc => releasable t this + acc) 0 m.

(** The accounting invariant of a heap of cache values: on every tracker,
    what the live values will release is covered by what is consumed. *)
Definition covered (h : Heap) : Prop :=
  forall t, never_negative t (trace h) /\ owed t (live h) <= consumption t (trace h).

(** What a tracker holds beyond what the live values will give back. *)
Definition surplus (t : tracker_id) (h : Heap) : Z :=
  consumption t (trace h) - owed t (live h).

(** The release calls the destructor of [this] makes, most recent first. *)
Definition tracked (this : LRUCacheValueBase) : list (tracker_id * N) :=
  if (0 <? _tracking_bytes this)%N then
    match _mem_tracker this, _value_mem_tracker this with
    | Some mt, Some vmt =>
        [(vmt, _value_tracking_bytes this); (mt, _tracking_bytes this)]
    | _, _ => []
    end
  else [].

Definition outstanding (m : gmap entry_id LRUCacheValueBase)
  : list (tracker_id * N) :=
  map_to_list m ≫= fun kv => tracked kv.2.

(** A value whose destructor passes its guard has both trackers. *)
Definition value_ok (this : LRUCacheValueBase) : Prop :=
  (0 < _tracking_bytes this)%N ->
  is_Some (_mem_tracker this) /\ is_Some (_value_mem_tracker this).

Definition heap_ok (h : Heap) : Prop :=
  forall e this, live h !! e = Some this -> value_ok this.

(** Tracker [t] is one of the two trackers of [this]. *)
Definition refers (t : tracker_id) (this : LRUCacheValueBase) : Prop :=
  _mem_tracker this = Some t \/ _value_mem_tracker this = Some t.

(** Tracker [t] is passed to the call [o]. *)
Definition mentions (t : tracker_id) (o : Op) : Prop :=
  match o with
  | SetTrackingBytes _ _ mt _ vmt => mt = Some t \/ vmt = Some t
  | Construct _ | Destroy _ => False
  end.

End LRUCacheValue.

(* ===================================================================== *)
(** ** cloud/config.cpp *)
(* ===================================================================== *)

Module Config.
Local Open Scope string_scope.

(** The declaration macros that occur in cloud/config.cpp. *)
Inductive DefineMacro :=
| DEFINE_String | DEFINE_mString
| DEFINE_Bool | DEFINE_mBool
| DEFINE_mInt32
| DEFINE_Int64 | DEFINE_mInt64
| DEFINE_mDouble.

Record Field := {
  macro : DefineMacro;
  name : string;
  default_value : string;
}.

Definition field (m : DefineMacro) (n d : string) : Field :=
  {| macro := m; name := n; default_value := d |}.

(** The declarations of [namespace doris::config], in source order. *)
Definition cloud_config : list Field := [
  field DEFINE_String "deploy_mode" "";
  field DEFINE_mString "cloud_unique_id" "";
  field DEFINE_mString "meta_service_endpoint" "";
  field DEFINE_mBool "enable_meta_service_endpoint_consistency_check" "true";
  field DEFINE_Bool "meta_service_use_load_balancer" "false";
  field DEFINE_mInt32 "meta_service_rpc_timeout_ms" "10000";
  field DEFINE_Bool "meta_service_connection_pooled" "true";
  field DEFINE_mInt64 "meta_service_connection_pool_size" "20";
  field DEFINE_mInt32 "meta_service_connection_age_base_seconds" "30";
  field DEFINE_mInt32 "meta_service_idle_connection_timeout_ms" "0";
  field DEFINE_mInt32 "meta_service_rpc_retry_times" "20";
  field DEFINE_mInt32 "meta_service_brpc_timeout_ms" "10000";
  field DEFINE_mInt32 "meta_service_rpc_timeout_retry_times" "2";
  field DEFINE_Int64 "tablet_cache_capacity" "100000";
  field DEFINE_Int64 "tablet_cache_shards" "16";
  field DEFINE_mInt32 "tablet_sync_interval_s" "1800";
  field DEFINE_mInt32 "init_scanner_sync_rowsets_parallelism" "10";
  field DEFINE_mInt32 "sync_rowsets_slow_threshold_ms" "1000";
  field DEFINE_mInt64 "min_compaction_failure_interval_ms" "5000";
  field DEFINE_mInt64 "base_compaction_freeze_interval_s" "1800";
  field DEFINE_mInt64 "compaction_load_max_freeze_interval_s" "1200";
  field DEFINE_mInt64 "cumu_compaction_interval_s" "1800";
  field DEFINE_mInt32 "compaction_timeout_seconds" "86400";
  field DEFINE_mInt32 "lease_compaction_interval_seconds" "20";
  field DEFINE_mBool "enable_parallel_cumu_compaction" "false";
  field DEFINE_mDouble "base_compaction_thread_num_factor" "0.25";
  field DEFINE_mDouble "cumu_compaction_thread_num_factor" "0.5";
  field DEFINE_mInt32 "check_auto_compaction_interval_seconds" "5";
  field DEFINE_mInt32 "max_base_compaction_task_num_per_disk" "2";
  field DEFINE_mBool "prioritize_query_perf_in_compaction" "false";
  field DEFINE_mInt32 "compaction_max_rowset_count" "10000";
  field DEFINE_mInt32 "refresh_s3_info_interval_s" "60";
  field DEFINE_mInt32 "vacuum_stale_rowsets_interval_s" "300";
  field DEFINE_mInt32 "schedule_sync_tablets_interval_s" "600";
  field DEFINE_mInt32 "mow_stream_load_commit_retry_times" "5";
  field DEFINE_mBool "save_load_error_log_to_s3" "false";
  field DEFINE_mInt32 "sync_load_for_tablets_thread" "32";
  field DEFINE_mBool "enable_new_tablet_do_compaction" "true";
  field DEFINE_mInt32 "delete_bitmap_lock_expiration_seconds" "10";
  field DEFINE_mInt32 "get_delete_bitmap_lock_max_retry_times" "100";
  field DEFINE_Bool "enable_cloud_txn_lazy_commit" "false";
  field DEFINE_mInt32 "remove_expired_tablet_txn_info_interval_seconds" "300";
  field DEFINE_mInt32 "tablet_txn_info_min_expired_seconds" "1800";
  field DEFINE_mBool "enable_use_cloud_unique_id_from_fe" "true";
  field DEFINE_mBool "enable_cloud_tablet_report" "true";
  field DEFINE_mInt32 "delete_bitmap_rpc_retry_times" "25";
  field DEFINE_mInt64 "meta_service_rpc_reconnect_interval_ms" "5000";
  field DEFINE_mInt32 "meta_service_conflict_error_retry_times" "10";
  field DEFINE_Bool "enable_check_storage_vault" "true"
].

(** Modelled from the spec: the [DEFINE_*] macros (common/config.h) are
    outside the embedded sources.  A field can be changed at runtime without
    process restart when it is "marked mutable", which is what the [m] of
    the macro name stands for. *)
Definition is_mutable (m : DefineMacro) : bool :=
  match m with
  | DEFINE_mString | DEFINE_mBool | DEFINE_mInt32 | DEFINE_mInt64
  | DEFINE_mDouble => true
  | DEFINE_String | DEFINE_Bool | DEFINE_Int64 => false
  end.

Definition lookup_field (n : string) : option Field :=
  List.find (fun f => String.eqb (name f) n) cloud_config.

(** Decimal reading of an integer default. *)
Definition digit_of (c : ascii) : option Z :=
  let n := Z.of_nat (nat_of_ascii c) in
  if (48 <=? n)%Z && (n <=? 57)%Z then Some (n - 48)%Z else None.

Fixpoint parse_digits (acc : Z) (s : string) : option Z :=
  match s with
  | EmptyString => Some acc
  | String c s' => d ← digit_of c; parse_digits (10 * acc + d)%Z s'
  end.

Definition parse_int (s : string) : option Z :=
  match s with
  | EmptyString => None
  | String "-" s' =>
      match s' with
      | EmptyString => None
      | _ => Z.opp <$> parse_digits 0 s'
      end
  | _ => parse_digits 0 s
  end.

Definition int_default (n : string) : option Z :=
  f ← lookup_field n; parse_int (default_value f).

(** The kinds of tuning knob the design document lists, read off the
    field name. *)
Inductive KnobKind := Timeout | RetryCount | Interval | Capacity | ThreadFactor.

Fixpoint is_infix (p s : string) : bool :=
  String.prefix p s ||
  match s with
  | EmptyString => false
  | String _ s' => is_infix p s'
  end.

Definition knob_kind (n : string) : option KnobKind :=
  if is_infix "retry_times" n then Some RetryCount
  else if is_infix "timeout" n then Some Timeout
  else if is_infix "interval" n then Some Interval
  else if is_infix "capacity" n then Some Capacity
  else if is_infix "thread_num_factor" n then Some ThreadFactor
  else None.

(** The declaration each kind of knob is expected to have, as a check that
    runs over the table. *)
Definition knob_declared_as_designed (f : Field) : bool :=
  match knob_kind (name f) with
  | Some Capacity =>
      match macro f with
      | DEFINE_Int64 => String.eqb (name f) "tablet_cache_capacity"
      | _ => false
      end
  | Some _ => is_mutable (macro f)
  | None => true
  end.

(** A default of a double field: digits, a point, digits. *)
Fixpoint all_digits (s : string) : bool :=
  match s with
  | EmptyString => true
  | String c s' => bool_decide (is_Some (digit_of c)) && all_digits s'
  end.

Fixpoint is_decimal (s : string) : bool :=
  match s with
  | EmptyString => false
  | String "." s' => negb (String.eqb s' "") && all_digits s'
  | String c s' => bool_decide (is_Some (digit_of c)) && is_decimal s'
  end.

Definition default_well_typed (f : Field) : bool :=
  match macro f with
  | DEFINE_String | DEFINE_mString => true
  | DEFINE_Bool | DEFINE_mBool =>
      String.eqb (default_value f) "true" || String.eqb (default_value f) "false"
  | DEFINE_mInt32 =>
      match parse_int (default_value f) with
      | Some z => (- 2 ^ 31 <=? z)%Z && (z <? 2 ^ 31)%Z
      | None => false
      end
  | DEFINE_Int64 | DEFINE_mInt64 =>
      match parse_int (default_value f) with
      | Some z => (- 2 ^ 63 <=? z)%Z && (z <? 2 ^ 63)%Z
      | None => false
      end
  | DEFINE_mDouble => is_decimal (default_value f)
  end.

(** The fields declared without the [m]. *)
Definition restart_only : list string := [
  "deploy_mode";
  "meta_service_use_load_balancer";
  "meta_service_connection_pooled";
  "tablet_cache_capacity";
  "tablet_cache_shards";
  "enable_cloud_txn_lazy_commit";
  "enable_check_storage_vault"
].

End Config.


(* ===================================================================== *)
(** ** MetaServiceClient: the retry policy *)
(* ===================================================================== *)

Module MetaServiceClient.

(** Outcome of one [RpcAttempt]. *)
Inductive Outcome := Success | TimedOut | ConnectionError | ApplicationConflict.

(** The error kinds of the taxonomy that a call can end with. *)
Inductive ErrorKind := RpcTimeout | RpcConnectionFailure | RpcConflict.

Inductive CallResult := Ok | Failed (k : ErrorKind).

(** The three budgets. *)
Record RetryPolicy := {
  rpc_retry_times : nat;
  rpc_timeout_retry_times : nat;
  conflict_error_retry_times : nat;
}.

(** The budgets as configured in cloud/config.cpp. *)
Definition configured_policy : option RetryPolicy :=
  g ← Config.int_default "meta_service_rpc_retry_times";
  t ← Config.int_default "meta_service_rpc_timeout_retry_times";
  c ← Config.int_default "meta_service_conflict_error_retry_times";
  Some {| rpc_retry_times := Z.to_nat g;
          rpc_timeout_retry_times := Z.to_nat t;
          conflict_error_retry_times := Z.to_nat c |}.

(** Attempts that failed so far, by outcome. *)
Record Attempts := {
  connection_failures : nat;
  timeouts : nat;
  conflicts : nat;
}.

Definition no_attempts : Attempts :=
  {| connection_failures := 0; timeouts := 0; conflicts := 0 |}.

(** Modelled from the spec: the client's call loop is outside the
    embedded sources.  "Retry policy with three independently configured
    budgets: (1) general RPC retries for connection-level failures, (2) a
    smaller retry budget specifically for timeout outcomes, (3) a separate
    budget for application-level conflict errors"; "once all relevant budgets
    are exhausted, the call fails with a distinguishable error kind".  Each
    failed attempt is charged to the budget of its own outcome only.  The
    budgets are counted as the testable properties word them: the timeout
    budget is a number of attempts (the call fails "after exactly the
    configured timeout-retry count of attempts"), and the conflict budget,
    like the "general RPC retries", is a number of retries after the first
    failure of its kind (the call "must retry exactly the configured
    conflict-retry count before failing").  [endpoint n] is the outcome of
    attempt number [n]; the result carries the number of attempts made. *)
Fixpoint call_from (fuel : nat) (p : RetryPolicy) (endpoint : nat -> Outcome)
    (n : nat) (a : Attempts) : option (CallResult * nat) :=
  match fuel with
  | O => None
  | S fuel' =>
      match endpoint n with
      | Success => Some (Ok, S n)
      | ConnectionError =>
          let a' := {| connection_failures := S (connection_failures a);
                       timeouts := timeouts a; conflicts := conflicts a |} in
          if decide (rpc_retry_times p < connection_failures a')%nat
          then Some (Failed RpcConnectionFailure, S n)
          else call_from fuel' p endpoint (S n) a'
      | TimedOut =>
          let a' := {| connection_failures := connection_failures a;
                       timeouts := S (timeouts a); conflicts := conflicts a |} in
          if decide (rpc_timeout_retry_times p <= timeouts a')%nat
          then Some (Failed RpcTimeout, S n)
          else call_from fuel' p endpoint (S n) a'
      | ApplicationConflict =>
          let a' := {| connection_failures := connection_failures a;
                       timeouts := timeouts a; conflicts := S (conflicts a) |} in
          if decide (conflict_error_retry_times p < conflicts a')%nat
          then Some (Failed RpcConflict, S n)
          else call_from fuel' p endpoint (S n) a'
      end
  end.

(** No call makes more attempts than the three budgets allow together. *)
Definition max_attempts (p : RetryPolicy) : nat :=
  (rpc_retry_times p + rpc_timeout_retry_times p
   + conflict_error_retry_times p + 3)%nat.

Definition call (p : RetryPolicy) (endpoint : nat -> Outcome)
  : option (CallResult * nat) :=
  call_from (max_attempts p) p endpoint 0 no_attempts.

(** What is left of the three budgets after the failed attempts [a]. *)
Definition remaining (p : RetryPolicy) (a : Attempts) : nat :=
  ((S (rpc_retry_times p) - connection_failures a)
   + (rpc_timeout_retry_times p - timeouts a)
   + (S (conflict_error_retry_times p) - conflicts a))%nat.

#[global] Instance Outcome_eq_dec : EqDecision Outcome.
Proof. solve_decision. Defined.

(** How many of the attempts [0 .. n-1] ended with outcome [o]. *)
Fixpoint count (o : Outcome) (endpoint : nat -> Outcome) (n : nat) : nat :=
  match n with
  | O => O
  | S n' => ((if decide (endpoint n' = o) then 1 else 0) + count o endpoint n')%nat
  end.

(** The counters of the loop before attempt [n]. *)
Definition counts_at (endpoint : nat -> Outcome) (n : nat) (a : Attempts) : Prop :=
  connection_failures a = count ConnectionError endpoint n /\
  timeouts a = count TimedOut endpoint n /\
  conflicts a = count ApplicationConflict endpoint n.

(** What attempt [k] decides, as a function of the outcomes alone: a
    success ends the call, a failure ends it when the failures of the same
    kind, this one included, use up the budget of that kind, and otherwise
    the call goes on. *)
Definition verdict (p : RetryPolicy) (endpoint : nat -> Outcome) (k : nat)
  : option CallResult :=
  match endpoint k with
  | Success => Some Ok
  | ConnectionError =>
      if decide (rpc_retry_times p < S (count ConnectionError endpoint k))%nat
      then Some (Failed RpcConnectionFailure) else None
  | TimedOut =>
      if decide (rpc_timeout_retry_times p <= S (count TimedOut endpoint k))%nat
      then Some (Failed RpcTimeout) else None
  | ApplicationConflict =>
      if decide (conflict_error_retry_times p
                 < S (count ApplicationConflict endpoint k))%nat
      then Some (Failed RpcConflict) else None
  end.

(** A client whose result rests on the attempts it made: an endpoint that
    answers those attempts alike gets the same result. *)
Definition causal
    (client : RetryPolicy -> (nat -> Outcome) -> option (CallResult * nat))
  : Prop :=
  forall p endpoint endpoint' r n,
    client p endpoint = Some (r, n) ->
    (forall k, (k < n)%nat -> endpoint k = endpoint' k) ->
    client p endpoint' = Some (r, n).

End MetaServiceClient.

(* ===================================================================== *)
(** ** CompactionLockManager: leases at the meta-service *)
(* ===================================================================== *)

Module CompactionLock.
Import MetaServiceClient.

Definition tablet_id := nat.
Definition owner_id := nat.

Record TabletCompactionLease := {
  owner : owner_id;
  expiration : Z;
  epoch : nat;
}.

(** The meta-service side: the lease of each tablet, the last epoch handed
    out for it, and what it has granted and accepted so far (most recent
    first). *)
Record MetaService := {
  leases : gmap tablet_id TabletCompactionLease;
  epochs : gmap tablet_id nat;
  granted : list (tablet_id * owner_id * nat);
  accepted : list (tablet_id * owner_id * nat);
}.

Definition empty_service : MetaService :=
  {| leases := ∅; epochs := ∅; granted := []; accepted := [] |}.

Definition last_epoch (ms : MetaService) (t : tablet_id) : nat :=
  default 0%nat (epochs ms !! t).

(** A lease is live strictly before its expiration. *)
Definition live_lease (ms : MetaService) (t : tablet_id) (now : Z)
  : option TabletCompactionLease :=
  l ← leases ms !! t;
  if decide (now < expiration l) then Some l else None.

Inductive Request :=
| AcquireLease (t : tablet_id) (o : owner_id) (now : Z)
| ReleaseLease (t : tablet_id) (o : owner_id)
| UpdateDeleteBitmap (t : tablet_id) (o : owner_id) (e : nat) (now : Z).

Inductive Response :=
| Granted (expiration : Z) (epoch : nat)
| Conflict
| Done
| Rejected.

(** Modelled from the spec: the meta-service is an external endpoint.
    Acquire is conditional: it conflicts while a live lease exists and
    otherwise grants a lease with the next epoch of the tablet, expiring
    [ttl] after the request.  Release relinquishes the owner's lease.  A
    mutation is accepted only under the live lease of the tablet, by its
    owner and epoch; "any mutation submitted under an epoch the meta-service
    no longer recognizes as current is rejected". *)
Definition serve (ttl : Z) (r : Request) (ms : MetaService)
  : Response * MetaService :=
  match r with
  | AcquireLease t o now =>
      match live_lease ms t now with
      | Some _ => (Conflict, ms)
      | None =>
          let e := S (last_epoch ms t) in
          (Granted (now + ttl) e,
           {| leases := <[t := {| owner := o; expiration := now + ttl;
                                  epoch := e |}]> (leases ms);
              epochs := <[t := e]> (epochs ms);
              granted := (t, o, e) :: granted ms;
              accepted := accepted ms |})
      end
  | ReleaseLease t o =>
      match leases ms !! t with
      | Some l =>
          if decide (owner l = o)
          then (Done, {| leases := delete t (leases ms); epochs := epochs ms;
                         granted := granted ms; accepted := accepted ms |})
          else (Rejected, ms)
      | None => (Rejected, ms)
      end
  | UpdateDeleteBitmap t o e now =>
      match live_lease ms t now with
      | Some l =>
          if decide (owner l = o /\ epoch l = e)
          then (Done, {| leases := leases ms; epochs := epochs ms;
                         granted := granted ms;
                         accepted := (t, o, e) :: accepted ms |})
          else (Rejected, ms)
      | None => (Rejected, ms)
      end
  end.

Fixpoint serve_all (ttl : Z) (rs : list Request) (ms : MetaService)
  : list Response * MetaService :=
  match rs with
  | [] => ([], ms)
  | r :: rs' =>
      let '(a, ms1) := serve ttl r ms in
      let '(resps, ms2) := serve_all ttl rs' ms1 in
      (a :: resps, ms2)
  end.

(** The lease duration configured in cloud/config.cpp, in seconds. *)
Definition configured_ttl : option Z :=
  Config.int_default "delete_bitmap_lock_expiration_seconds".

(** Transport-level failure of one attempt. *)
Inductive Fault := Lost | Refused.

Inductive AcquireResult :=
| Held (l : TabletCompactionLease)
| LeaseBusy
| Unavailable (k : ErrorKind).

(** What attempt [n] of an acquire RPC comes back with, as long as no
    earlier attempt succeeded. *)
Definition acquire_attempt (ttl : Z) (t : tablet_id) (o : owner_id)
    (wire : nat -> option Fault) (clock : nat -> Z) (ms : MetaService)
    (n : nat) : Outcome :=
  match wire n with
  | Some Lost => TimedOut
  | Some Refused => ConnectionError
  | None =>
      match fst (serve ttl (AcquireLease t o (clock n)) ms) with
      | Granted _ _ => Success
      | _ => ApplicationConflict
      end
  end.

(** Modelled from the spec: [CompactionLockManager.acquire] "issues a
    conditional-acquire RPC via MetaServiceClient.  On success, records a
    local TabletCompactionLease with the returned expiration and epoch.  On
    conflict, retries up to a configured maximum attempt count, then fails
    with a lock busy error"; other exhausted budgets surface as the
    infrastructure failure they are.  [clock n] is the time of attempt
    [n]. *)
Definition acquire (p : RetryPolicy) (ttl : Z) (t : tablet_id) (o : owner_id)
    (wire : nat -> option Fault) (clock : nat -> Z) (ms : MetaService)
  : option (AcquireResult * MetaService) :=
  '(r, n) ← call p (acquire_attempt ttl t o wire clock ms);
  match r with
  | Ok =>
      match serve ttl (AcquireLease t o (clock (pred n))) ms with
      | (Granted x e, ms') =>
          Some (Held {| owner := o; expiration := x; epoch := e |}, ms')
      | _ => None
      end
  | Failed RpcConflict => Some (LeaseBusy, ms)
  | Failed k => Some (Unavailable k, ms)
  end.

(** What every state of the meta-service satisfies: granted epochs lie
    between 1 and the last epoch of their tablet, no epoch of a tablet was
    granted to two owners, the lease of a tablet carries the last epoch of
    the tablet and was granted, and every accepted mutation ran under a
    granted lease. *)
Definition service_inv (ms : MetaService) : Prop :=
  (forall t o e, (t, o, e) ∈ granted ms -> (1 <= e <= last_epoch ms t)%nat) /\
  (forall t o o' e,
     (t, o, e) ∈ granted ms -> (t, o', e) ∈ granted ms -> o = o') /\
  (forall t l, leases ms !! t = Some l ->
     epoch l = last_epoch ms t /\ (t, owner l, epoch l) ∈ granted ms) /\
  (forall t o e, (t, o, e) ∈ accepted ms -> (t, o, e) ∈ granted ms).

End CompactionLock.

(* ===================================================================== *)
(** ** MetaServiceClient: the connection pool *)
(* ===================================================================== *)

Module ConnectionPool.

(** A pooled channel; times in milliseconds. *)
Record Channel := {
  channel_id : nat;
  creation_time : Z;
  last_used_time : Z;
}.

Record PoolConfig := {
  pool_size : nat;
  age_limit : Z;
  idle_timeout : Z;
}.

(** The pool settings of cloud/config.cpp. *)
Definition configured_pool : option PoolConfig :=
  n ← Config.int_default "meta_service_connection_pool_size";
  age ← Config.int_default "meta_service_connection_age_base_seconds";
  idle ← Config.int_default "meta_service_idle_connection_timeout_ms";
  Some {| pool_size := Z.to_nat n; age_limit := 1000 * age;
          idle_timeout := idle |}.

Record Pool := {
  slots : gmap nat Channel;
  channels_created : nat;
}.

Definition empty_pool : Pool := {| slots := ∅; channels_created := 0 |}.

(** "Older than its age limit or idle longer than its idle-timeout." *)
Definition expired (cfg : PoolConfig) (now : Z) (ch : Channel) : bool :=
  (age_limit cfg <? now - creation_time ch)
  || (idle_timeout cfg <? now - last_used_time ch).

Definition slot_of (cfg : PoolConfig) (i : nat) : nat := (i mod pool_size cfg)%nat.

Definition open_channel (slot : nat) (now : Z) (p : Pool) : Channel * Pool :=
  let ch := {| channel_id := channels_created p; creation_time := now;
               last_used_time := now |} in
  (ch, {| slots := <[slot := ch]> (slots p);
          channels_created := S (channels_created p) |}).

(** Modelled from the spec: the pool is outside the embedded sources.
    "Maintains a bounded pool of channels; each channel has a maximum age
    and idle timeout after which it is discarded and lazily recreated":
    call number [i] is served from slot [i mod pool_size]; an expired or
    missing channel is replaced by a newly opened one, a usable one is
    handed out and stamped with the time of use. *)
Definition get_channel (cfg : PoolConfig) (i : nat) (now : Z) (p : Pool)
  : Channel * Pool :=
  let slot := slot_of cfg i in
  match slots p !! slot with
  | Some ch =>
      if expired cfg now ch then open_channel slot now p
      else
        let ch' := {| channel_id := channel_id ch;
                      creation_time := creation_time ch;
                      last_used_time := now |} in
        (ch', {| slots := <[slot := ch']> (slots p);
                 channels_created := channels_created p |})
  | None => open_channel slot now p
  end.

Fixpoint get_channels (cfg : PoolConfig) (calls : list (nat * Z)) (p : Pool)
  : list Channel * Pool :=
  match calls with
  | [] => ([], p)
  | (i, now) :: calls' =>
      let '(ch, p1) := get_channel cfg i now p in
      let '(chs, p2) := get_channels cfg calls' p1 in
      (ch :: chs, p2)
  end.

(** Channel identities are unique and were all handed out by the pool. *)
Definition pool_wf (p : Pool) : Prop :=
  forall s ch, slots p !! s = Some ch ->
    (channel_id ch < channels_created p)%nat /\
    forall s' ch', slots p !! s' = Some ch' ->
      channel_id ch' = channel_id ch -> s' = s.

(** Channel [k] was opened by the pool and is in none of its slots. *)
Definition retired (k : nat) (p : Pool) : Prop :=
  (k < channels_created p)%nat /\
  forall s ch, slots p !! s = Some ch -> channel_id ch <> k.

End ConnectionPool.


(* ===================================================================== *)
(** * Properties of the tracked cache values *)
(* ===================================================================== *)

Section TrackedValues.
Import MemTracker LRUCacheValue.

Implicit Types (t mt vmt : tracker_id) (tr : Trace) (this v : LRUCacheValueBase).
Implicit Types (m : gmap entry_id LRUCacheValueBase) (h : Heap).

Local Arguments set_tracking_bytes : simpl never.
Local Arguments destroy : simpl never.

Lemma releasable_nonneg t v : 0 <= releasable t v.
Proof.
  unfold releasable.
  destruct (0 <? _tracking_bytes v)%N; repeat case_decide; lia.
Qed.

Lemma releasable_new_value t : releasable t new_value = 0.
Proof. reflexivity. Qed.

Lemma owed_empty t : owed t ∅ = 0.
Proof. unfold owed. by rewrite map_fold_empty. Qed.

Lemma owed_insert_fresh t e v m :
  m !! e = None -> owed t (<[e := v]> m) = releasable t v + owed t m.
Proof.
  intros Hfresh. unfold owed.
  rewrite map_fold_insert_L; [done | intros; lia | done].
Qed.

Lemma owed_delete t e v m :
  m !! e = Some v -> owed t m = releasable t v + owed t (delete e m).
Proof.
  intros Hlive. unfold owed.
  rewrite (map_fold_delete_L _ _ e v m); [done | intros; lia | done].
Qed.

Lemma owed_insert_live t e v v' m :
  m !! e = Some v ->
  owed t (<[e := v']> m) = releasable t v' - releasable t v + owed t m.
Proof.
  intros Hlive.
  rewrite <- (insert_delete_eq m e v').
  rewrite owed_insert_fresh by apply lookup_delete_eq.
  rewrite (owed_delete t e v m Hlive). lia.
Qed.

Lemma owed_nonneg t m : 0 <= owed t m.
Proof.
  induction m as [|e v m Hfresh IH] using map_ind.
  - by rewrite owed_empty.
  - rewrite owed_insert_fresh by done. pose proof (releasable_nonneg t v). lia.
Qed.

(** The two calls of [set_tracking_bytes], for non-null trackers. *)
Lemma set_tracking_bytes_trace tb mt vtb vmt this tr :
  set_tracking_bytes tb (Some mt) vtb (Some vmt) this tr
  = Some ({| _tracking_bytes := tb; _value_tracking_bytes := vtb;
             _mem_tracker := Some mt; _value_mem_tracker := Some vmt |},
          Consume vmt vtb :: Consume mt tb :: tr).
Proof. reflexivity. Qed.

(** Whatever the pointers, a call that is defined consumed on both. *)
Lemma set_tracking_bytes_inv tb p vtb q this tr v tr' :
  set_tracking_bytes tb p vtb q this tr = Some (v, tr') ->
  exists mt vmt, p = Some mt /\ q = Some vmt /\
    v = {| _tracking_bytes := tb; _value_tracking_bytes := vtb;
           _mem_tracker := Some mt; _value_mem_tracker := Some vmt |} /\
    tr' = Consume vmt vtb :: Consume mt tb :: tr.
Proof.
  unfold set_tracking_bytes, consume. cbn.
  destruct p as [mt|], q as [vmt|]; cbn; intros H; try discriminate.
  injection H as <- <-. by exists mt, vmt.
Qed.

Lemma destroy_inv v tr tr' :
  destroy v tr = Some tr' ->
  ((_tracking_bytes v = 0)%N /\ tr' = tr) \/
  ((0 < _tracking_bytes v)%N /\ exists mt vmt,
      _mem_tracker v = Some mt /\ _value_mem_tracker v = Some vmt /\
      tr' = Release vmt (_value_tracking_bytes v)
              :: Release mt (_tracking_bytes v) :: tr).
Proof.
  unfold destroy, release.
  destruct (0 <? _tracking_bytes v)%N eqn:Hpos.
  - apply N.ltb_lt in Hpos.
    destruct (_mem_tracker v) as [mt|], (_value_mem_tracker v) as [vmt|];
      cbn; intros H; try discriminate.
    injection H as <-. right. split; [done|]. by exists mt, vmt.
  - apply N.ltb_ge in Hpos. intros H. injection H as <-. left. split; [lia | done].
Qed.

(** The destructor gives back exactly what it is recorded to owe. *)
Lemma destroy_consumption t v tr tr' :
  destroy v tr = Some tr' ->
  consumption t tr' = consumption t tr - releasable t v.
Proof.
  intros H. apply destroy_inv in H as [[Hz ->] | [Hpos (mt & vmt & Hm & Hv & ->)]].
  - unfold releasable. rewrite Hz. cbn. lia.
  - unfold releasable. rewrite (proj2 (N.ltb_lt _ _) Hpos), Hm, Hv. cbn.
    repeat case_decide; simplify_eq; lia.
Qed.

Lemma destroy_never_negative t v tr tr' :
  destroy v tr = Some tr' ->
  never_negative t tr -> releasable t v <= consumption t tr ->
  never_negative t tr'.
Proof.
  intros H Hnn Hle.
  pose proof (destroy_consumption t v tr tr' H) as Hc.
  apply destroy_inv in H as [[Hz ->] | [Hpos (mt & vmt & Hm & Hv & ->)]]; [done|].
  revert Hc Hle. unfold releasable.
  rewrite (proj2 (N.ltb_lt _ _) Hpos), Hm, Hv. cbn.
  repeat case_decide; simplify_eq; intros; repeat split; try done; lia.
Qed.

(** A second [set_tracking_bytes] forgets what the value owed before. *)
Lemma set_consumption t tb mt vtb vmt tr :
  consumption t (Consume vmt vtb :: Consume mt tb :: tr)
  = consumption t tr
    + (if decide (mt = t) then Z.of_N tb else 0)
    + (if decide (vmt = t) then Z.of_N vtb else 0).
Proof. cbn. lia. Qed.

Lemma releasable_le_consumed t tb mt vtb vmt :
  releasable t {| _tracking_bytes := tb; _value_tracking_bytes := vtb;
                  _mem_tracker := Some mt; _value_mem_tracker := Some vmt |}
  <= (if decide (mt = t) then Z.of_N tb else 0)
     + (if decide (vmt = t) then Z.of_N vtb else 0).
Proof.
  unfold releasable. cbn.
  destruct (0 <? tb)%N; repeat case_decide; simplify_eq; lia.
Qed.

Lemma releasable_positive t tb mt vtb vmt :
  (0 < tb)%N ->
  releasable t {| _tracking_bytes := tb; _value_tracking_bytes := vtb;
                  _mem_tracker := Some mt; _value_mem_tracker := Some vmt |}
  = (if decide (mt = t) then Z.of_N tb else 0)
    + (if decide (vmt = t) then Z.of_N vtb else 0).
Proof.
  intros Hpos. unfold releasable. cbn.
  rewrite (proj2 (N.ltb_lt _ _) Hpos).
  repeat case_decide; simplify_eq; lia.
Qed.

Lemma step_covered o h h' : step o h = Some h' -> covered h -> covered h'.
Proof.
  destruct o as [e | e tb p vtb q | e]; cbn.
  - destruct (live h !! e) eqn:He; [discriminate|].
    intros H; injection H as <-. intros Hc t. cbn.
    rewrite owed_insert_fresh, releasable_new_value by done. apply Hc.
  - destruct (live h !! e) as [this|] eqn:He; [|discriminate]. cbn.
    destruct (set_tracking_bytes tb p vtb q this (trace h)) as [[v tr']|] eqn:Hset;
      cbn; [|discriminate].
    intros H; injection H as <-. intros Hc t. cbn.
    apply set_tracking_bytes_inv in Hset as (mt & vmt & -> & -> & -> & ->).
    rewrite (owed_insert_live t e this) by done.
    destruct (Hc t) as [Hnn Hle].
    pose proof (releasable_le_consumed t tb mt vtb vmt).
    pose proof (releasable_nonneg t this).
    pose proof (owed_nonneg t (live h)).
    cbn. repeat case_decide; simplify_eq; repeat split; try done; lia.
  - destruct (live h !! e) as [this|] eqn:He; [|discriminate]. cbn.
    destruct (destroy this (trace h)) as [tr'|] eqn:Hd; cbn; [|discriminate].
    intros H; injection H as <-. intros Hc t. cbn.
    destruct (Hc t) as [Hnn Hle].
    pose proof (owed_delete t e this (live h) He).
    pose proof (owed_nonneg t (delete e (live h))).
    split.
    + eapply destroy_never_negative; [done..|lia].
    + rewrite (destroy_consumption t this _ _ Hd). lia.
Qed.

Lemma run_covered ops h h' : run ops h = Some h' -> covered h -> covered h'.
Proof.
  revert h. induction ops as [|o ops IH]; intros h; cbn.
  - intros H; by injection H as <-.
  - destruct (step o h) as [h1|] eqn:Hstep; [|discriminate]. cbn.
    intros Hrun Hc. eapply IH; [done|]. by eapply step_covered.
Qed.

Lemma run_app ops1 ops2 h :
  run (ops1 ++ ops2) h = h1 ← run ops1 h; run ops2 h1.
Proof.
  revert h. induction ops1 as [|o ops1 IH]; intros h; cbn; [done|].
  destruct (step o h); cbn; [apply IH | done].
Qed.

Lemma cache_op_surplus c h h' t :
  positive_tracking c -> run (ops_of c) h = Some h' -> surplus t h' = surplus t h.
Proof.
  unfold surplus. destruct c as [e tb mt vtb vmt | e]; cbn.
  - intros Hpos. destruct (live h !! e) eqn:He; [discriminate|]. cbn.
    rewrite lookup_insert_eq. cbn. intros H; injection H as <-. cbn.
    rewrite insert_insert_eq, owed_insert_fresh by done.
    rewrite releasable_positive by done. lia.
  - intros _. destruct (live h !! e) as [this|] eqn:He; [|discriminate]. cbn.
    destruct (destroy this (trace h)) as [tr'|] eqn:Hd; cbn; [|discriminate].
    intros H; injection H as <-. cbn.
    rewrite (destroy_consumption t this _ _ Hd), (owed_delete t e this (live h) He).
    lia.
Qed.

Lemma run_cache_surplus cs h h' t :
  Forall positive_tracking cs -> run_cache cs h = Some h' ->
  surplus t h' = surplus t h.
Proof.
  unfold run_cache. intros Hall. revert h.
  induction Hall as [|c cs Hc _ IH]; intros h; cbn.
  - intros H; by injection H as <-.
  - rewrite run_app. destruct (run (ops_of c) h) as [h1|] eqn:H1; [|discriminate].
    cbn. intros H2. rewrite (IH _ H2). by eapply cache_op_surplus.
Qed.

Lemma never_negative_consumption t tr : never_negative t tr -> 0 <= consumption t tr.
Proof. destruct tr; cbn; [lia | tauto]. Qed.

Lemma empty_heap_covered h :
  live h = ∅ -> (forall t, never_negative t (trace h)) -> covered h.
Proof.
  intros Hlive Hnn t. split; [done|].
  rewrite Hlive, owed_empty. by apply never_negative_consumption.
Qed.

(** C1 (as amended): a cache value on which [set_tracking_bytes] was called
    exactly once, with a positive [tracking_bytes], consumes each amount once
    and its destructor releases each amount exactly once, on the tracker that
    received the matching consume.  Hence over every sequence of insertions
    with positive [tracking_bytes] and evictions that starts and ends with no
    live value, the consumption of every tracker is back at its baseline. *)
Theorem C1_release_matches_consume :
  (forall tb mt vtb vmt tr, (0 < tb)%N ->
     exists v,
       set_tracking_bytes tb (Some mt) vtb (Some vmt) new_value tr
       = Some (v, Consume vmt vtb :: Consume mt tb :: tr) /\
       forall tr', destroy v tr' = Some (Release vmt vtb :: Release mt tb :: tr'))
  /\
  (forall cs h h',
     Forall positive_tracking cs ->
     live h = ∅ -> run_cache cs h = Some h' -> live h' = ∅ ->
     forall t, consumption t (trace h') = consumption t (trace h)).
Proof.
  split.
  - intros tb mt vtb vmt tr Hpos. eexists. split; [apply set_tracking_bytes_trace|].
    intros tr'. unfold destroy. cbn. by rewrite (proj2 (N.ltb_lt _ _) Hpos).
  - intros cs h h' Hall H0 Hrun H1 t.
    pose proof (run_cache_surplus cs h h' t Hall Hrun) as Hs.
    unfold surplus in Hs. rewrite H0, H1, !owed_empty in Hs. lia.
Qed.

Lemma C1_release_matches_consume_witness :
  (exists v,
     set_tracking_bytes 64 (Some 1%nat) 4096 (Some 2%nat) new_value []
     = Some (v, [Consume 2%nat 4096; Consume 1%nat 64]) /\
     forall tr', destroy v tr'
                 = Some (Release 2%nat 4096 :: Release 1%nat 64 :: tr'))
  /\
  (forall t,
     consumption t [Release 2%nat 4096; Release 1%nat 64;
                    Release 2%nat 10; Release 1%nat 8;
                    Consume 2%nat 4096; Consume 1%nat 64;
                    Consume 2%nat 10; Consume 1%nat 8]
     = consumption t []).
Proof.
  split.
  - apply (proj1 C1_release_matches_consume 64%N 1%nat 4096%N 2%nat []). lia.
  - apply (proj2 C1_release_matches_consume
             [Insert 0%nat 8 1%nat 10 2%nat; Insert 1%nat 64 1%nat 4096 2%nat;
              Evict 0%nat; Evict 1%nat]
             {| live := ∅; trace := [] |}
             {| live := ∅;
                trace := [Release 2%nat 4096; Release 1%nat 64;
                          Release 2%nat 10; Release 1%nat 8;
                          Consume 2%nat 4096; Consume 1%nat 64;
                          Consume 2%nat 10; Consume 1%nat 8] |}).
    + repeat constructor; cbn; lia.
    + reflexivity.
    + vm_compute. reflexivity.
    + reflexivity.
Defined.

(** C1 as stated fails: an insertion with [tracking_bytes = 0] and a positive
    [value_tracking_bytes] consumes on the value tracker, and the eviction
    releases nothing, so the value tracker does not return to its baseline. *)
Lemma C1_counterexample :
  ~ (forall cs h h',
       live h = ∅ -> run_cache cs h = Some h' -> live h' = ∅ ->
       forall t, consumption t (trace h') = consumption t (trace h)).
Proof.
  intros H.
  specialize (H [Insert 0%nat 0 1%nat 5 2%nat; Evict 0%nat]
                {| live := ∅; trace := [] |}
                {| live := ∅; trace := [Consume 2%nat 5; Consume 1%nat 0] |}
                eq_refl).
  assert (Hrun : run_cache [Insert 0%nat 0 1%nat 5 2%nat; Evict 0%nat]
                   {| live := ∅; trace := [] |}
                 = Some {| live := ∅; trace := [Consume 2%nat 5; Consume 1%nat 0] |})
    by (vm_compute; reflexivity).
  specialize (H Hrun eq_refl 2%nat). vm_compute in H. discriminate.
Qed.

(** C3: [set_tracking_bytes] consumes the entry bytes on [mem_tracker] and the
    value bytes on [value_mem_tracker]; both calls are part of the state it
    returns, so the consumption read right after the call includes both
    amounts. *)
Theorem C3_set_tracking_bytes_consumes_both tb mt vtb vmt this tr :
  exists v tr',
    set_tracking_bytes tb (Some mt) vtb (Some vmt) this tr = Some (v, tr') /\
    tr' = Consume vmt vtb :: Consume mt tb :: tr /\
    _tracking_bytes v = tb /\ _mem_tracker v = Some mt /\
    _value_tracking_bytes v = vtb /\ _value_mem_tracker v = Some vmt /\
    (forall t, consumption t tr'
               = consumption t tr
                 + (if decide (mt = t) then Z.of_N tb else 0)
                 + (if decide (vmt = t) then Z.of_N vtb else 0)) /\
    (mt <> vmt ->
     consumption mt tr' = consumption mt tr + Z.of_N tb /\
     consumption vmt tr' = consumption vmt tr + Z.of_N vtb).
Proof.
  eexists _, _. split; [apply set_tracking_bytes_trace|].
  do 5 (split; [reflexivity|]).
  split; [intros t; apply set_consumption|].
  intros Hne. rewrite !set_consumption.
  split; repeat case_decide; simplify_eq; lia.
Qed.

Lemma C3_set_tracking_bytes_consumes_both_witness :
  exists v tr',
    set_tracking_bytes 64 (Some 1%nat) 4096 (Some 2%nat) new_value [] = Some (v, tr') /\
    consumption 1%nat tr' = 64 /\ consumption 2%nat tr' = 4096.
Proof.
  destruct (C3_set_tracking_bytes_consumes_both 64%N 1%nat 4096%N 2%nat new_value [])
    as (v & tr' & Hset & _ & _ & _ & _ & _ & _ & Hsep).
  exists v, tr'. split; [exact Hset|].
  apply Hsep. discriminate.
Defined.

(** C4: with [_tracking_bytes = 0] the destructor releases nothing, whatever
    [_value_tracking_bytes] is; a value set up with [tracking_bytes = 0] and
    a positive [value_tracking_bytes] has consumed on its value tracker and
    its destruction leaves that consumption in place. *)
Theorem C4_zero_tracking_bytes_skips_release :
  (forall this tr, _tracking_bytes this = 0%N -> destroy this tr = Some tr)
  /\
  (forall mt vtb vmt this tr, (0 < vtb)%N ->
     exists v,
       set_tracking_bytes 0 (Some mt) vtb (Some vmt) this tr
       = Some (v, Consume vmt vtb :: Consume mt 0 :: tr) /\
       destroy v (Consume vmt vtb :: Consume mt 0 :: tr)
       = Some (Consume vmt vtb :: Consume mt 0 :: tr) /\
       consumption vmt (Consume vmt vtb :: Consume mt 0 :: tr)
       = consumption vmt tr + Z.of_N vtb /\
       consumption vmt tr < consumption vmt (Consume vmt vtb :: Consume mt 0 :: tr)).
Proof.
  split.
  - intros this tr Hz. unfold destroy. by rewrite Hz.
  - intros mt vtb vmt this tr Hpos. eexists. split; [apply set_tracking_bytes_trace|].
    split; [reflexivity|]. rewrite set_consumption.
    repeat case_decide; simplify_eq; lia.
Qed.

Lemma C4_zero_tracking_bytes_skips_release_witness :
  destroy {| _tracking_bytes := 0; _value_tracking_bytes := 5;
             _mem_tracker := Some 1%nat; _value_mem_tracker := Some 2%nat |}
          [Consume 2%nat 5; Consume 1%nat 0]
  = Some [Consume 2%nat 5; Consume 1%nat 0]
  /\
  exists v,
    set_tracking_bytes 0 (Some 1%nat) 5 (Some 2%nat) new_value []
    = Some (v, [Consume 2%nat 5; Consume 1%nat 0]) /\
    destroy v [Consume 2%nat 5; Consume 1%nat 0]
    = Some [Consume 2%nat 5; Consume 1%nat 0] /\
    consumption 2%nat [Consume 2%nat 5; Consume 1%nat 0]
    = consumption 2%nat [] + Z.of_N 5 /\
    consumption 2%nat [] < consumption 2%nat [Consume 2%nat 5; Consume 1%nat 0].
Proof.
  split.
  - apply (proj1 C4_zero_tracking_bytes_skips_release). reflexivity.
  - apply (proj2 C4_zero_tracking_bytes_skips_release 1%nat 5%N 2%nat new_value []).
    lia.
Defined.

(** C5: over every sequence of constructions, [set_tracking_bytes] calls and
    destructions that starts with no live value, the consumption of every
    tracker (consumed minus released) is non-negative after every single
    call made on the trackers. *)
Theorem C5_consumption_never_negative ops h h' :
  live h = ∅ -> (forall t, never_negative t (trace h)) ->
  run ops h = Some h' ->
  forall t, never_negative t (trace h') /\ 0 <= consumption t (trace h').
Proof.
  intros Hlive Hnn Hrun t.
  pose proof (run_covered ops h h' Hrun (empty_heap_covered h Hlive Hnn) t) as [H1 H2].
  split; [done|]. by apply never_negative_consumption.
Qed.

Lemma C5_consumption_never_negative_witness :
  never_negative 1%nat [Release 2%nat 7; Release 1%nat 3; Consume 2%nat 7;
                        Consume 1%nat 3; Consume 1%nat 9; Consume 1%nat 0]
  /\ 0 <= consumption 1%nat [Release 2%nat 7; Release 1%nat 3; Consume 2%nat 7;
                             Consume 1%nat 3; Consume 1%nat 9; Consume 1%nat 0].
Proof.
  refine (C5_consumption_never_negative
           [Construct 0%nat; SetTrackingBytes 0%nat 0 (Some 1%nat) 9 (Some 1%nat);
            SetTrackingBytes 0%nat 3 (Some 1%nat) 7 (Some 2%nat); Destroy 0%nat]
           {| live := ∅; trace := [] |}
           {| live := ∅;
              trace := [Release 2%nat 7; Release 1%nat 3; Consume 2%nat 7;
                        Consume 1%nat 3; Consume 1%nat 9; Consume 1%nat 0] |}
           _ _ _ 1%nat).
  - reflexivity.
  - intros t. exact I.
  - vm_compute. reflexivity.
Defined.

(** C10: a second [set_tracking_bytes] on a live value consumes on the
    trackers it is given and releases nothing; the destructor then releases
    only what the second call recorded, so what the first call consumed stays
    consumed on its trackers. *)
Theorem C10_second_set_tracking_bytes_leaks
    tb1 mt1 vtb1 vmt1 tb2 mt2 vtb2 vmt2 this tr :
  exists v1 v2,
    let tr1 := Consume vmt1 vtb1 :: Consume mt1 tb1 :: tr in
    let tr2 := Consume vmt2 vtb2 :: Consume mt2 tb2 :: tr1 in
    let tr3 := if (0 <? tb2)%N
               then Release vmt2 vtb2 :: Release mt2 tb2 :: tr2 else tr2 in
    set_tracking_bytes tb1 (Some mt1) vtb1 (Some vmt1) this tr = Some (v1, tr1) /\
    set_tracking_bytes tb2 (Some mt2) vtb2 (Some vmt2) v1 tr1 = Some (v2, tr2) /\
    destroy v2 tr2 = Some tr3 /\
    (forall t, consumption t tr + (if decide (mt1 = t) then Z.of_N tb1 else 0)
                 + (if decide (vmt1 = t) then Z.of_N vtb1 else 0)
               <= consumption t tr3) /\
    ((0 < tb2)%N ->
     forall t, consumption t tr3
               = consumption t tr
                 + (if decide (mt1 = t) then Z.of_N tb1 else 0)
                 + (if decide (vmt1 = t) then Z.of_N vtb1 else 0)).
Proof.
  eexists _, _. cbn zeta.
  split; [apply set_tracking_bytes_trace|].
  split; [apply set_tracking_bytes_trace|].
  unfold destroy. cbn.
  destruct (0 <? tb2)%N eqn:Hpos; (split; [reflexivity|]); split.
  - intros t. cbn. repeat case_decide; simplify_eq; lia.
  - intros _ t. cbn. repeat case_decide; simplify_eq; lia.
  - intros t. cbn. repeat case_decide; simplify_eq; lia.
  - intros Hlt. apply N.ltb_lt in Hlt. congruence.
Qed.

Lemma C10_second_set_tracking_bytes_leaks_witness :
  exists v1 v2,
    set_tracking_bytes 64 (Some 1%nat) 4096 (Some 2%nat) new_value []
    = Some (v1, [Consume 2%nat 4096; Consume 1%nat 64]) /\
    set_tracking_bytes 32 (Some 3%nat) 100 (Some 4%nat) v1
      [Consume 2%nat 4096; Consume 1%nat 64]
    = Some (v2, [Consume 4%nat 100; Consume 3%nat 32;
                 Consume 2%nat 4096; Consume 1%nat 64]) /\
    destroy v2 [Consume 4%nat 100; Consume 3%nat 32;
                Consume 2%nat 4096; Consume 1%nat 64]
    = Some [Release 4%nat 100; Release 3%nat 32; Consume 4%nat 100;
            Consume 3%nat 32; Consume 2%nat 4096; Consume 1%nat 64] /\
    consumption 1%nat [Release 4%nat 100; Release 3%nat 32; Consume 4%nat 100;
                       Consume 3%nat 32; Consume 2%nat 4096; Consume 1%nat 64]
    = 64 /\
    consumption 2%nat [Release 4%nat 100; Release 3%nat 32; Consume 4%nat 100;
                       Consume 3%nat 32; Consume 2%nat 4096; Consume 1%nat 64]
    = 4096.
Proof.
  destruct (C10_second_set_tracking_bytes_leaks
              64%N 1%nat 4096%N 2%nat 32%N 3%nat 100%N 4%nat new_value [])
    as (v1 & v2 & H1 & H2 & H3 & _ & H4).
  exists v1, v2. split; [exact H1|]. split; [exact H2|]. split; [exact H3|].
  split.
  - exact (H4 ltac:(reflexivity) 1%nat).
  - exact (H4 ltac:(reflexivity) 2%nat).
Defined.

End TrackedValues.

(* ===================================================================== *)
(** * Properties of the configuration table *)
(* ===================================================================== *)

Section ConfigTable.
Import Config.
Local Open Scope string_scope.

Lemma cloud_config_knobs :
  forallb knob_declared_as_designed cloud_config = true.
Proof. vm_compute. reflexivity. Qed.

Lemma tablet_cache_capacity_declared :
  In (field DEFINE_Int64 "tablet_cache_capacity" "100000") cloud_config.
Proof. unfold cloud_config. repeat (first [left; reflexivity | right]). Qed.

Lemma rpc_timeout_retry_times_declared :
  In (field DEFINE_mInt32 "meta_service_rpc_timeout_retry_times" "2") cloud_config.
Proof. unfold cloud_config. repeat (first [left; reflexivity | right]). Qed.

(** C8 (as amended): every timeout, retry count, interval and thread factor
    of the configuration table is declared as a mutable field; the one
    capacity, [tablet_cache_capacity], is declared with [DEFINE_Int64] and is
    not mutable. *)
Theorem C8_knobs_mutable_except_capacity :
  (forall f k, In f cloud_config -> knob_kind (name f) = Some k ->
     k <> Capacity -> is_mutable (macro f) = true)
  /\
  (forall f, In f cloud_config -> knob_kind (name f) = Some Capacity ->
     name f = "tablet_cache_capacity" /\ macro f = DEFINE_Int64 /\
     is_mutable (macro f) = false).
Proof.
  pose proof cloud_config_knobs as Hall.
  rewrite forallb_forall in Hall.
  split.
  - intros f k Hin Hk Hne. specialize (Hall f Hin).
    unfold knob_declared_as_designed in Hall. rewrite Hk in Hall.
    by destruct k.
  - intros f Hin Hk. specialize (Hall f Hin).
    unfold knob_declared_as_designed in Hall. rewrite Hk in Hall.
    destruct (macro f); try discriminate Hall.
    apply String.eqb_eq in Hall. done.
Qed.

Lemma C8_knobs_mutable_except_capacity_witness :
  is_mutable DEFINE_mInt32 = true
  /\ is_mutable DEFINE_Int64 = false.
Proof.
  split.
  - apply (proj1 C8_knobs_mutable_except_capacity
             (field DEFINE_mInt32 "meta_service_rpc_timeout_retry_times" "2")
             RetryCount).
    + apply rpc_timeout_retry_times_declared.
    + reflexivity.
    + discriminate.
  - apply (proj2 C8_knobs_mutable_except_capacity
             (field DEFINE_Int64 "tablet_cache_capacity" "100000")).
    + apply tablet_cache_capacity_declared.
    + reflexivity.
Defined.

(** C8 as stated fails: [tablet_cache_capacity] is a capacity of the table
    and is not declared mutable. *)
Lemma C8_counterexample :
  ~ (forall f k, In f cloud_config -> knob_kind (name f) = Some k ->
       is_mutable (macro f) = true).
Proof.
  intros H.
  specialize (H (field DEFINE_Int64 "tablet_cache_capacity" "100000") Capacity
                tablet_cache_capacity_declared eq_refl).
  discriminate H.
Qed.

End ConfigTable.

(* ===================================================================== *)
(** * Properties of the retry policy *)
(* ===================================================================== *)

Section RetryBudgets.
Import MetaServiceClient.

Implicit Types (p : RetryPolicy) (a : Attempts) (endpoint : nat -> Outcome).
Implicit Types (o : Outcome) (r : CallResult).

Lemma call_from_total p endpoint fuel n a :
  (remaining p a < fuel)%nat -> is_Some (call_from fuel p endpoint n a).
Proof.
  revert n a. induction fuel as [|fuel IH]; intros n a Hfuel; [lia|].
  cbn. destruct (endpoint n); [by eexists | | |];
    (case_decide; [by eexists | apply IH; unfold remaining in *; cbn in *; lia]).
Qed.

(** Every call ends with a result. *)
Lemma call_total p endpoint : is_Some (call p endpoint).
Proof.
  apply call_from_total. unfold remaining, max_attempts. cbn. lia.
Qed.

Lemma count_ext o endpoint endpoint' n :
  (forall j, (j < n)%nat -> endpoint j = endpoint' j) ->
  count o endpoint n = count o endpoint' n.
Proof.
  induction n as [|n IH]; intros Hext; [done|].
  cbn. rewrite (Hext n), IH by (intros; auto with lia). done.
Qed.

Lemma count_mono o endpoint j n :
  (j <= n)%nat -> (count o endpoint j <= count o endpoint n)%nat.
Proof. induction 1; cbn; lia. Qed.

Lemma count_before o endpoint j n :
  (j < n)%nat -> endpoint j = o ->
  (S (count o endpoint j) <= count o endpoint n)%nat.
Proof.
  intros Hlt Ho. pose proof (count_mono o endpoint (S j) n Hlt) as Hm.
  cbn in Hm. rewrite decide_True in Hm by done. lia.
Qed.

Lemma count_all o endpoint n :
  (forall j, (j < n)%nat -> endpoint j = o) -> count o endpoint n = n.
Proof.
  induction n as [|n IH]; intros Hall; [done|].
  cbn. rewrite decide_True, IH by auto with lia. done.
Qed.

Lemma count_none o endpoint n :
  (forall j, (j < n)%nat -> endpoint j <> o) -> count o endpoint n = O.
Proof.
  induction n as [|n IH]; intros Hall; [done|].
  cbn. rewrite decide_False, IH by auto with lia. done.
Qed.

(** A count that was passed was reached at some attempt of that outcome. *)
Lemma count_reaches o endpoint n c :
  (c < count o endpoint n)%nat ->
  exists j, (j < n)%nat /\ endpoint j = o /\ count o endpoint j = c.
Proof.
  induction n as [|n IH]; cbn; [lia|].
  case_decide as Ho; intros Hc.
  - destruct (decide (c = count o endpoint n)) as [-> | Hne].
    + exists n. auto with lia.
    + destruct IH as (j & ? & ? & ?); [lia|]. exists j. auto with lia.
  - destruct IH as (j & ? & ? & ?); [lia|]. exists j. auto with lia.
Qed.

Lemma verdict_ext p endpoint endpoint' k :
  (forall j, (j <= k)%nat -> endpoint j = endpoint' j) ->
  verdict p endpoint k = verdict p endpoint' k.
Proof.
  intros Hext. unfold verdict. rewrite <- (Hext k) by lia.
  by rewrite !(count_ext _ endpoint endpoint' k) by auto with lia.
Qed.

(** The loop ends at the first attempt with a verdict. *)
Lemma call_from_sound fuel p endpoint n a r m :
  counts_at endpoint n a -> call_from fuel p endpoint n a = Some (r, m) ->
  exists k, m = S k /\ (n <= k)%nat /\ verdict p endpoint k = Some r /\
    forall j, (n <= j < k)%nat -> verdict p endpoint j = None.
Proof.
  revert n a. induction fuel as [|fuel IH]; intros n a Hc Hcall; [discriminate|].
  cbn in Hcall. destruct Hc as (Hcf & Hto & Hco).
  assert (Hnext : forall o a',
            endpoint n = o ->
            connection_failures a'
            = ((if decide (o = ConnectionError) then 1 else 0)
               + connection_failures a)%nat ->
            timeouts a'
            = ((if decide (o = TimedOut) then 1 else 0) + timeouts a)%nat ->
            conflicts a'
            = ((if decide (o = ApplicationConflict) then 1 else 0)
               + conflicts a)%nat ->
            counts_at endpoint (S n) a').
  { intros o a' Ho H1 H2 H3. unfold counts_at. cbn.
    rewrite Ho, H1, H2, H3, Hcf, Hto, Hco. done. }
  destruct (endpoint n) eqn:Hep.
  - injection Hcall as <- <-. exists n.
    split; [done|]. split; [done|]. split; [|intros; lia].
    unfold verdict. by rewrite Hep.
  - cbn in Hcall. case_decide as Hend.
    + injection Hcall as <- <-. exists n.
      split; [done|]. split; [done|]. split; [|intros; lia].
      unfold verdict. rewrite Hep, <- Hto. by rewrite decide_True.
    + apply IH in Hcall as (k & -> & Hle & Hv & Hnone);
        [|by apply (Hnext TimedOut)].
      exists k. split; [done|]. split; [lia|]. split; [done|].
      intros j Hj. destruct (decide (j = n)) as [-> | Hne]; [|apply Hnone; lia].
      unfold verdict. rewrite Hep, <- Hto. by rewrite decide_False.
  - cbn in Hcall. case_decide as Hend.
    + injection Hcall as <- <-. exists n.
      split; [done|]. split; [done|]. split; [|intros; lia].
      unfold verdict. rewrite Hep, <- Hcf. by rewrite decide_True.
    + apply IH in Hcall as (k & -> & Hle & Hv & Hnone);
        [|by apply (Hnext ConnectionError)].
      exists k. split; [done|]. split; [lia|]. split; [done|].
      intros j Hj. destruct (decide (j = n)) as [-> | Hne]; [|apply Hnone; lia].
      unfold verdict. rewrite Hep, <- Hcf. by rewrite decide_False.
  - cbn in Hcall. case_decide as Hend.
    + injection Hcall as <- <-. exists n.
      split; [done|]. split; [done|]. split; [|intros; lia].
      unfold verdict. rewrite Hep, <- Hco. by rewrite decide_True.
    + apply IH in Hcall as (k & -> & Hle & Hv & Hnone);
        [|by apply (Hnext ApplicationConflict)].
      exists k. split; [done|]. split; [lia|]. split; [done|].
      intros j Hj. destruct (decide (j = n)) as [-> | Hne]; [|apply Hnone; lia].
      unfold verdict. rewrite Hep, <- Hco. by rewrite decide_False.
Qed.

Lemma call_sound p endpoint r m :
  call p endpoint = Some (r, m) ->
  exists k, m = S k /\ verdict p endpoint k = Some r /\
    forall j, (j < k)%nat -> verdict p endpoint j = None.
Proof.
  intros Hcall.
  apply call_from_sound in Hcall as (k & -> & _ & Hv & Hnone); [|done].
  exists k. split; [done|]. split; [done|]. intros j Hj. apply Hnone. lia.
Qed.

(** What a call returns, stated on the outcomes: it ends at the first attempt
    that has a verdict, with that verdict. *)
Lemma call_ends_at p endpoint r k :
  call p endpoint = Some (r, S k)
  <-> verdict p endpoint k = Some r /\
      forall j, (j < k)%nat -> verdict p endpoint j = None.
Proof.
  split.
  - intros Hcall. apply call_sound in Hcall as (k' & Hk & Hv & Hnone).
    by simplify_eq.
  - intros [Hv Hnone].
    destruct (call_total p endpoint) as [[r' m'] Hcall]. rewrite Hcall.
    apply call_sound in Hcall as (k' & -> & Hv' & Hnone').
    destruct (Nat.lt_trichotomy k k') as [Hlt | [<- | Hgt]].
    + rewrite (Hnone' k Hlt) in Hv. discriminate.
    + congruence.
    + rewrite (Hnone k' Hgt) in Hv'. discriminate.
Qed.

Lemma call_causal : causal call.
Proof.
  intros p endpoint endpoint' r n Hcall Hext.
  apply call_sound in Hcall as (k & -> & Hv & Hnone).
  apply call_ends_at. split.
  - rewrite <- (verdict_ext p endpoint endpoint' k); [done|]. auto with lia.
  - intros j Hj. rewrite <- (verdict_ext p endpoint endpoint' j); auto with lia.
Qed.

(** A client that reports a failure without an attempt reports it to every
    endpoint, a healthy one included. *)
Lemma untried_failure_is_unconditional client p endpoint r :
  causal client -> client p endpoint = Some (r, O) ->
  forall endpoint', client p endpoint' = Some (r, O).
Proof. intros Hc Hcall endpoint'. eapply Hc; [done | intros; lia]. Qed.

(** Failures within the budgets of their kinds do not end the call. *)
Lemma call_survives p endpoint n :
  (forall j, (j < n)%nat -> endpoint j <> Success) ->
  (count ConnectionError endpoint n <= rpc_retry_times p)%nat ->
  (count TimedOut endpoint n = O \/
   count TimedOut endpoint n < rpc_timeout_retry_times p)%nat ->
  (count ApplicationConflict endpoint n <= conflict_error_retry_times p)%nat ->
  endpoint n = Success ->
  call p endpoint = Some (Ok, S n).
Proof.
  intros Hfail Hg Ht Hc Hok. apply call_ends_at. split.
  - unfold verdict. by rewrite Hok.
  - intros j Hj. unfold verdict. destruct (endpoint j) eqn:Hep.
    + by destruct (Hfail j Hj).
    + pose proof (count_before TimedOut endpoint j n Hj Hep).
      rewrite decide_False; [done | lia].
    + pose proof (count_before ConnectionError endpoint j n Hj Hep).
      rewrite decide_False; [done | lia].
    + pose proof (count_before ApplicationConflict endpoint j n Hj Hep).
      rewrite decide_False; [done | lia].
Qed.

Lemma call_timeouts_exhausted p endpoint :
  (forall j, (j < Nat.max 1 (rpc_timeout_retry_times p))%nat ->
             endpoint j = TimedOut) ->
  call p endpoint
  = Some (Failed RpcTimeout, Nat.max 1 (rpc_timeout_retry_times p)).
Proof.
  intros Hall.
  replace (Nat.max 1 (rpc_timeout_retry_times p))
    with (S (Nat.max 1 (rpc_timeout_retry_times p) - 1)) by lia.
  apply call_ends_at. split.
  - unfold verdict. rewrite Hall, count_all by first [lia | intros; apply Hall; lia].
    rewrite decide_True; [done | lia].
  - intros j Hj. unfold verdict.
    rewrite Hall, count_all by first [lia | intros; apply Hall; lia].
    rewrite decide_False; [done | lia].
Qed.


Lemma call_conflicts_exhausted p endpoint :
  (forall j, (j <= conflict_error_retry_times p)%nat ->
             endpoint j = ApplicationConflict) ->
  call p endpoint = Some (Failed RpcConflict, S (conflict_error_retry_times p)).
Proof.
  intros Hall. apply call_ends_at. split.
  - unfold verdict. rewrite Hall, count_all by first [lia | intros; apply Hall; lia].
    rewrite decide_True; [done | lia].
  - intros j Hj. unfold verdict.
    rewrite Hall, count_all by first [lia | intros; apply Hall; lia].
    rewrite decide_False; [done | lia].
Qed.

Lemma call_always_conflict p endpoint :
  (forall k, endpoint k = ApplicationConflict) ->
  call p endpoint = Some (Failed RpcConflict, S (conflict_error_retry_times p)).
Proof. intros Hall. apply call_conflicts_exhausted. auto. Qed.

(** A success after no more conflicts than the conflict budget allows to
    retry is reached. *)
Lemma call_after_conflicts p endpoint k :
  (k <= conflict_error_retry_times p)%nat ->
  (forall j, (j < k)%nat -> endpoint j = ApplicationConflict) ->
  endpoint k = Success ->
  call p endpoint = Some (Ok, S k).
Proof.
  intros Hk Hall Hok. apply call_survives; [| | | |done].
  - intros j Hj. by rewrite Hall.
  - rewrite count_none; [lia|]. intros j Hj. by rewrite Hall.
  - left. apply count_none. intros j Hj. by rewrite Hall.
  - rewrite count_all by done. lia.
Qed.

(** A call that fails with [RpcConflict] saw its last attempt end with a
    conflict, the one conflict more than the budget retries. *)
Lemma call_conflict_inv p endpoint n :
  call p endpoint = Some (Failed RpcConflict, n) ->
  exists k, n = S k /\ endpoint k = ApplicationConflict /\
    count ApplicationConflict endpoint n = S (conflict_error_retry_times p).
Proof.
  intros Hcall. apply call_sound in Hcall as (k & -> & Hv & Hnone).
  exists k. split; [done|].
  unfold verdict in Hv. destruct (endpoint k) eqn:Hep; try discriminate;
    try (case_decide; discriminate).
  split; [done|]. case_decide as Hend; [|discriminate].
  cbn. rewrite Hep, decide_True by done.
  destruct (decide (count ApplicationConflict endpoint k
                    = conflict_error_retry_times p)) as [-> | Hne]; [done|].
  exfalso.
  destruct (count_reaches ApplicationConflict endpoint k
              (conflict_error_retry_times p)) as (j & Hj & Hepj & Hcj); [lia|].
  specialize (Hnone j Hj). unfold verdict in Hnone.
  rewrite Hepj, Hcj, decide_True in Hnone by lia. discriminate.
Qed.




End RetryBudgets.

(* ===================================================================== *)
(** * Properties of the lease protocol *)
(* ===================================================================== *)

Section Leases.
Import MetaServiceClient CompactionLock.

Implicit Types (ms : MetaService) (t : tablet_id) (o : owner_id) (e : nat).
Implicit Types (l : TabletCompactionLease) (now ttl : Z) (r : Request).

Lemma live_lease_Some ms t now l :
  live_lease ms t now = Some l <-> leases ms !! t = Some l /\ now < expiration l.
Proof.
  unfold live_lease. destruct (leases ms !! t) as [l'|]; cbn.
  - case_decide as Hnow; split.
    + intros H. by simplify_eq.
    + by intros [H _].
    + discriminate.
    + intros [H Hlt]. simplify_eq. lia.
  - split; [discriminate | by intros [H _]].
Qed.

Lemma serve_acquire_busy ttl t o now ms :
  is_Some (live_lease ms t now) ->
  serve ttl (AcquireLease t o now) ms = (Conflict, ms).
Proof. intros [l Hl]. cbn. by rewrite Hl. Qed.

Lemma serve_acquire_granted ttl t o now ms x e ms' :
  serve ttl (AcquireLease t o now) ms = (Granted x e, ms') ->
  live_lease ms t now = None /\ x = now + ttl /\ e = S (last_epoch ms t).
Proof.
  cbn. destruct (live_lease ms t now); [discriminate|].
  intros H. by simplify_eq.
Qed.

Lemma serve_update_rejected ttl t o e now ms :
  (forall l, live_lease ms t now = Some l -> ~ (owner l = o /\ epoch l = e)) ->
  serve ttl (UpdateDeleteBitmap t o e now) ms = (Rejected, ms).
Proof.
  intros Hno. cbn. destruct (live_lease ms t now) as [l|] eqn:Hl; [|done].
  case_decide as Hok; [|done]. by destruct (Hno l eq_refl).
Qed.

Lemma empty_service_inv : service_inv empty_service.
Proof.
  unfold service_inv, empty_service. cbn.
  split; [|split; [|split]]; intros *;
    rewrite ?elem_of_nil, ?lookup_empty; done.
Qed.

Lemma last_epoch_granted t t' e ms lm g a :
  last_epoch {| leases := lm; epochs := <[t := e]> (epochs ms);
                granted := g; accepted := a |} t'
  = if decide (t = t') then e else last_epoch ms t'.
Proof.
  unfold last_epoch. cbn. rewrite lookup_insert. by case_decide.
Qed.

Lemma serve_inv ttl r ms :
  service_inv ms -> service_inv (serve ttl r ms).2.
Proof.
  intros (Hrange & Huniq & Hlease & Hacc).
  destruct r as [t o now | t o | t o e now]; cbn.
  - destruct (live_lease ms t now) eqn:Hlive; [done|]. cbn.
    unfold service_inv. setoid_rewrite last_epoch_granted. cbn.
    split; [|split; [|split]].
    + intros t' o' e' [Heq | Hin]%elem_of_cons.
      * simplify_eq. rewrite decide_True by done. lia.
      * specialize (Hrange _ _ _ Hin). case_decide; simplify_eq; lia.
    + intros t' o1 o2 e' [H1 | H1]%elem_of_cons [H2 | H2]%elem_of_cons.
      * by simplify_eq.
      * simplify_eq. specialize (Hrange _ _ _ H2). lia.
      * simplify_eq. specialize (Hrange _ _ _ H1). lia.
      * by eapply Huniq.
    + intros t' l'. rewrite lookup_insert. case_decide as Ht.
      * intros Hl. simplify_eq. cbn. split; [done | apply list_elem_of_here].
      * intros Hl. destruct (Hlease _ _ Hl) as [He Hin].
        split; [done | by apply list_elem_of_further].
    + intros t' o' e' Hin. apply list_elem_of_further. by apply Hacc.
  - destruct (leases ms !! t) as [l|] eqn:Hl; [|done].
    case_decide; [|done]. cbn. unfold service_inv, last_epoch in *. cbn.
    split; [done|]. split; [done|]. split; [|done].
    intros t' l' [_ Hl']%lookup_delete_Some. by apply Hlease.
  - destruct (live_lease ms t now) as [l|] eqn:Hlive; [|done].
    case_decide as Hok; [|done]. cbn. unfold service_inv, last_epoch in *. cbn.
    apply live_lease_Some in Hlive as [Hl _]. destruct Hok as [<- <-].
    split; [done|]. split; [done|]. split; [done|].
    intros t' o' e' [Heq | Hin]%elem_of_cons; [|by apply Hacc].
    simplify_eq. by apply Hlease.
Qed.

Lemma serve_all_inv ttl rs ms :
  service_inv ms -> service_inv (serve_all ttl rs ms).2.
Proof.
  revert ms. induction rs as [|r rs IH]; intros ms Hinv; [done|].
  cbn. pose proof (serve_inv ttl r ms Hinv) as H1.
  destruct (serve ttl r ms) as [a ms1]. specialize (IH ms1 H1).
  by destruct (serve_all ttl rs ms1) as [resps ms2].
Qed.

(** With a live lease on the tablet at every attempt and a clean wire, the
    lock manager reports lock busy and the meta-service is unchanged. *)
Lemma acquire_busy p ttl t o clock ms :
  (forall n, is_Some (live_lease ms t (clock n))) ->
  acquire p ttl t o (fun _ => None) clock ms = Some (LeaseBusy, ms).
Proof.
  intros Hlive. unfold acquire.
  rewrite (call_always_conflict p); [done|].
  intros k. unfold acquire_attempt.
  by rewrite (serve_acquire_busy ttl t o (clock k) ms (Hlive k)).
Qed.

(** The end-to-end scenario of the design document, with the configured
    lease duration of 10 seconds: A acquires at 100 (epoch 1, expiry 110),
    B is refused while the lease is live, B acquires at 111 with epoch 2,
    and A's delayed mutation under epoch 1 is rejected. *)
Example lease_scenario :
  configured_ttl = Some 10 /\
  (serve_all 10 [AcquireLease 7%nat 1%nat 100; AcquireLease 7%nat 2%nat 100;
                 AcquireLease 7%nat 2%nat 111;
                 UpdateDeleteBitmap 7%nat 1%nat 1%nat 112;
                 UpdateDeleteBitmap 7%nat 2%nat 2%nat 112] empty_service).1
  = [Granted 110 1%nat; Conflict; Granted 121 2%nat; Rejected; Done].
Proof. split; by vm_compute. Qed.

(** C2: in every state the meta-service reaches, no epoch of a tablet was
    granted to two owners and no two owners had a mutation accepted under the
    same epoch of a tablet; an acquire while a lease is live conflicts, and
    the lock manager reports [LeaseBusy]; a grant carries an epoch strictly
    larger than every epoch granted before for the tablet; and a mutation
    under an epoch other than the current one of the tablet, in particular
    under a superseded one, is rejected without effect. *)
Theorem C2_one_writer_per_epoch ttl (rs : list Request) :
  let ms := (serve_all ttl rs empty_service).2 in
  (forall t e o o',
     (t, o, e) ∈ granted ms -> (t, o', e) ∈ granted ms -> o = o') /\
  (forall t e o o',
     (t, o, e) ∈ accepted ms -> (t, o', e) ∈ accepted ms -> o = o') /\
  (forall t o now, is_Some (live_lease ms t now) ->
     serve ttl (AcquireLease t o now) ms = (Conflict, ms)) /\
  (forall p t o clock, (forall n, is_Some (live_lease ms t (clock n))) ->
     acquire p ttl t o (fun _ => None) clock ms = Some (LeaseBusy, ms)) /\
  (forall t o now x e ms',
     serve ttl (AcquireLease t o now) ms = (Granted x e, ms') ->
     forall o' e', (t, o', e') ∈ granted ms -> (e' < e)%nat) /\
  (forall t o e now, e <> last_epoch ms t ->
     serve ttl (UpdateDeleteBitmap t o e now) ms = (Rejected, ms)) /\
  (forall t o e o' e' now,
     (t, o, e) ∈ granted ms -> (t, o', e') ∈ granted ms -> (e < e')%nat ->
     serve ttl (UpdateDeleteBitmap t o e now) ms = (Rejected, ms)).
Proof.
  intros ms.
  destruct (serve_all_inv ttl rs empty_service empty_service_inv)
    as (Hrange & Huniq & Hlease & Hacc).
  fold ms in Hrange, Huniq, Hlease, Hacc.
  assert (Hstale : forall t o e now, e <> last_epoch ms t ->
            serve ttl (UpdateDeleteBitmap t o e now) ms = (Rejected, ms)).
  { intros t o e now Hne. apply serve_update_rejected.
    intros l [Hl _]%live_lease_Some [_ He].
    destruct (Hlease t l Hl) as [Hcur _]. congruence. }
  split; [|split; [|split; [|split; [|split; [|split]]]]].
  - intros t e o o'. apply Huniq.
  - intros t e o o' H1 H2. eapply Huniq; by apply Hacc.
  - intros t o now. apply serve_acquire_busy.
  - intros p t o clock. apply acquire_busy.
  - intros t o now x e ms' Hgrant o' e' Hin.
    apply serve_acquire_granted in Hgrant as (_ & _ & ->).
    specialize (Hrange _ _ _ Hin). lia.
  - exact Hstale.
  - intros t o e o' e' now _ Hin Hlt. apply Hstale.
    specialize (Hrange _ _ _ Hin). lia.
Qed.

Lemma C2_one_writer_per_epoch_witness :
  (serve 10 (AcquireLease 7%nat 1%nat 115)
     (serve_all 10 [AcquireLease 7%nat 1%nat 100; AcquireLease 7%nat 2%nat 111]
        empty_service).2).1 = Conflict /\
  fst <$> acquire {| rpc_retry_times := 20; rpc_timeout_retry_times := 2;
                     conflict_error_retry_times := 10 |}
            10 7%nat 1%nat (fun _ => None) (fun _ => 112)
            (serve_all 10 [AcquireLease 7%nat 1%nat 100; AcquireLease 7%nat 2%nat 111]
               empty_service).2
  = Some LeaseBusy /\
  (serve 10 (UpdateDeleteBitmap 7%nat 1%nat 1%nat 115)
     (serve_all 10 [AcquireLease 7%nat 1%nat 100; AcquireLease 7%nat 2%nat 111]
        empty_service).2).1 = Rejected.
Proof.
  destruct (C2_one_writer_per_epoch 10
              [AcquireLease 7%nat 1%nat 100; AcquireLease 7%nat 2%nat 111])
    as (_ & _ & Hbusy & Hlock & _ & _ & Hstale).
  set (ms := (serve_all 10 [AcquireLease 7%nat 1%nat 100;
                            AcquireLease 7%nat 2%nat 111] empty_service).2) in *.
  assert (Hlease : forall now, now < 121 -> is_Some (live_lease ms 7%nat now)).
  { intros now Hnow. exists {| owner := 2%nat; expiration := 121; epoch := 2 |}.
    apply live_lease_Some. split; [by vm_compute | cbn; lia]. }
  split; [|split].
  - rewrite Hbusy; [reflexivity | apply Hlease; lia].
  - rewrite Hlock; [reflexivity | intros n; apply Hlease; lia].
  - rewrite (Hstale 7%nat 1%nat 1%nat 2%nat 2%nat 115); [reflexivity | | | lia].
    + vm_compute. apply list_elem_of_further, list_elem_of_here.
    + vm_compute. apply list_elem_of_here.
Defined.

Lemma acquire_attempt_busy ttl t o clock ms k :
  is_Some (live_lease ms t (clock k)) ->
  acquire_attempt ttl t o (fun _ => None) clock ms k = ApplicationConflict.
Proof.
  intros Hlive. unfold acquire_attempt.
  by rewrite (serve_acquire_busy ttl t o (clock k) ms Hlive).
Qed.

Lemma acquire_attempt_free ttl t o clock ms k :
  live_lease ms t (clock k) = None ->
  acquire_attempt ttl t o (fun _ => None) clock ms k = Success.
Proof. intros Hfree. unfold acquire_attempt. cbn. by rewrite Hfree. Qed.

(** C7: the conflict budget is its own configuration field, 10 by default.
    Against an endpoint that answers every attempt with a conflict, a call
    makes its first attempt, retries exactly as many times as the conflict
    budget, and fails with [RpcConflict], an error kind distinct from the two
    infrastructure kinds; a call fails with [RpcConflict] only when its last
    attempt was the one conflict more than the budget retries, and a success
    that comes within the retries is reached.  On a lease acquisition the
    exhausted conflict budget, and nothing else, reaches the caller as
    [LeaseBusy], with the meta-service untouched: the lock manager holds the
    lease when the tablet is free or becomes free within the retries, reports
    [LeaseBusy] when a lease is live at every attempt, and reports lost
    requests as the timeout they are. *)
Theorem C7_conflict_budget_then_lock_busy :
  Config.int_default "meta_service_conflict_error_retry_times" = Some 10 /\
  (forall p, call p (fun _ => ApplicationConflict)
             = Some (Failed RpcConflict, S (conflict_error_retry_times p))) /\
  (exists p, configured_policy = Some p /\
     call p (fun _ => ApplicationConflict) = Some (Failed RpcConflict, 11%nat)) /\
  (forall p endpoint n,
     call p endpoint = Some (Failed RpcConflict, n) ->
     exists k, n = S k /\ endpoint k = ApplicationConflict /\
       count ApplicationConflict endpoint n = S (conflict_error_retry_times p)) /\
  (forall p endpoint k,
     (k <= conflict_error_retry_times p)%nat ->
     (forall j, (j < k)%nat -> endpoint j = ApplicationConflict) ->
     endpoint k = Success ->
     call p endpoint = Some (Ok, S k)) /\
  (RpcConflict <> RpcTimeout /\ RpcConflict <> RpcConnectionFailure) /\
  (forall p ttl t o wire clock ms ms',
     acquire p ttl t o wire clock ms = Some (LeaseBusy, ms')
     <-> ms' = ms /\
         exists n, call p (acquire_attempt ttl t o wire clock ms)
                   = Some (Failed RpcConflict, n)) /\
  (forall p ttl t o clock ms,
     (forall j, (j <= conflict_error_retry_times p)%nat ->
                is_Some (live_lease ms t (clock j))) ->
     call p (acquire_attempt ttl t o (fun _ => None) clock ms)
     = Some (Failed RpcConflict, S (conflict_error_retry_times p)) /\
     acquire p ttl t o (fun _ => None) clock ms = Some (LeaseBusy, ms)) /\
  (forall p ttl t o clock ms k,
     (k <= conflict_error_retry_times p)%nat ->
     (forall j, (j < k)%nat -> is_Some (live_lease ms t (clock j))) ->
     live_lease ms t (clock k) = None ->
     acquire p ttl t o (fun _ => None) clock ms
     = Some (Held {| owner := o; expiration := clock k + ttl;
                     epoch := S (last_epoch ms t) |},
             (serve ttl (AcquireLease t o (clock k)) ms).2)) /\
  (forall p ttl t o clock ms,
     acquire p ttl t o (fun _ => Some Lost) clock ms
     = Some (Unavailable RpcTimeout, ms)).
Proof.
  split; [by vm_compute|].
  split; [intros p; by apply call_always_conflict|].
  split; [eexists; split; by vm_compute|].
  split; [apply call_conflict_inv|].
  split; [apply call_after_conflicts|].
  split; [split; discriminate|].
  split.
  { intros p ttl t o wire clock ms ms'. unfold acquire.
    destruct (call p (acquire_attempt ttl t o wire clock ms)) as [[r n]|] eqn:Hcall;
      cbn.
    - destruct r as [|[| |]]; cbn.
      + destruct (live_lease ms t (clock (pred n)));
          (split; [discriminate | intros [_ [n' Hn']]; discriminate]).
      + split; [discriminate | intros [_ [n' Hn']]; discriminate].
      + split; [discriminate | intros [_ [n' Hn']]; discriminate].
      + split.
        * intros H. injection H as <-. split; [done | by exists n].
        * intros [-> _]. done.
    - split; [discriminate | intros [_ [n' Hn']]; discriminate]. }
  split.
  { intros p ttl t o clock ms Hlive.
    assert (Hcall : call p (acquire_attempt ttl t o (fun _ => None) clock ms)
                    = Some (Failed RpcConflict, S (conflict_error_retry_times p))).
    { apply call_conflicts_exhausted. intros j Hj.
      by apply acquire_attempt_busy, Hlive. }
    split; [done|]. unfold acquire. by rewrite Hcall. }
  split.
  { intros p ttl t o clock ms k Hk Hlive Hfree. unfold acquire.
    rewrite (call_after_conflicts p _ k); [|done| |by apply acquire_attempt_free].
    - cbn. by rewrite Hfree.
    - intros j Hj. by apply acquire_attempt_busy, Hlive. }
  intros p ttl t o clock ms. unfold acquire.
  by rewrite (call_timeouts_exhausted p).
Qed.

Lemma C7_conflict_budget_then_lock_busy_witness :
  acquire {| rpc_retry_times := 20; rpc_timeout_retry_times := 2;
             conflict_error_retry_times := 10 |}
          10 7%nat 2%nat (fun _ => None) (fun n => 105 + Z.of_nat n)
          (serve 10 (AcquireLease 7%nat 1%nat 100) empty_service).2
  = Some (Held {| owner := 2%nat; expiration := 120; epoch := 2 |},
          (serve 10 (AcquireLease 7%nat 2%nat 110)
             (serve 10 (AcquireLease 7%nat 1%nat 100) empty_service).2).2)
  /\
  acquire {| rpc_retry_times := 20; rpc_timeout_retry_times := 2;
             conflict_error_retry_times := 3 |}
          10 7%nat 2%nat (fun _ => None) (fun n => 105 + Z.of_nat n)
          (serve 10 (AcquireLease 7%nat 1%nat 100) empty_service).2
  = Some (LeaseBusy, (serve 10 (AcquireLease 7%nat 1%nat 100) empty_service).2).
Proof.
  destruct C7_conflict_budget_then_lock_busy
    as (_ & _ & _ & _ & _ & _ & _ & Hbusy & Hheld & _).
  assert (Hlive : forall j, (j < 5)%nat ->
            is_Some (live_lease
                       (serve 10 (AcquireLease 7%nat 1%nat 100) empty_service).2
                       7%nat (105 + Z.of_nat j))).
  { intros j Hj. exists {| owner := 1%nat; expiration := 110; epoch := 1 |}.
    apply live_lease_Some. split; [by vm_compute | cbn; lia]. }
  split.
  - apply (Hheld {| rpc_retry_times := 20; rpc_timeout_retry_times := 2;
                    conflict_error_retry_times := 10 |}
             10 7%nat 2%nat (fun n => 105 + Z.of_nat n)
             (serve 10 (AcquireLease 7%nat 1%nat 100) empty_service).2 5%nat).
    + cbn. lia.
    + exact Hlive.
    + by vm_compute.
  - apply (Hbusy {| rpc_retry_times := 20; rpc_timeout_retry_times := 2;
                    conflict_error_retry_times := 3 |}
             10 7%nat 2%nat (fun n => 105 + Z.of_nat n)
             (serve 10 (AcquireLease 7%nat 1%nat 100) empty_service).2).
    intros j Hj. apply Hlive. cbn in Hj. lia.
Defined.

End Leases.

(* ===================================================================== *)
(** * Properties of the connection pool *)
(* ===================================================================== *)

Section PooledChannels.
Import ConnectionPool.

Implicit Types (cfg : PoolConfig) (p : Pool) (ch c : Channel) (now : Z).

(** The pool as configured: 20 channels, 30 seconds of age, and an idle
    timeout of 0 milliseconds. *)
Example configured_pool_defaults :
  configured_pool
  = Some {| pool_size := 20; age_limit := 30000; idle_timeout := 0 |}.
Proof. by vm_compute. Qed.

Lemma empty_pool_wf : pool_wf empty_pool.
Proof. intros s ch. cbn. by rewrite lookup_empty. Qed.

Lemma open_channel_wf slot now p :
  pool_wf p -> pool_wf (open_channel slot now p).2.
Proof.
  intros Hwf s ch. cbn. rewrite lookup_insert. case_decide as Hs.
  - intros Hch. simplify_eq. cbn. split; [lia|].
    intros s' ch'. rewrite lookup_insert. case_decide; [done|].
    intros Hch' Hid. destruct (Hwf _ _ Hch') as [Hlt _]. lia.
  - intros Hch. destruct (Hwf _ _ Hch) as [Hlt Huniq]. split; [lia|].
    intros s' ch'. rewrite lookup_insert. case_decide.
    + intros Hch' Hid. simplify_eq. cbn in Hid. lia.
    + by apply Huniq.
Qed.

Lemma get_channel_wf cfg i now p :
  pool_wf p -> pool_wf (get_channel cfg i now p).2.
Proof.
  intros Hwf. unfold get_channel.
  destruct (slots p !! slot_of cfg i) as [ch0|] eqn:H0;
    [|by apply open_channel_wf].
  destruct (expired cfg now ch0); [by apply open_channel_wf|].
  destruct (Hwf _ _ H0) as [Hlt0 Huniq0].
  intros s ch. cbn. rewrite lookup_insert. case_decide as Hs.
  - intros Hch. simplify_eq. cbn. split; [done|].
    intros s' ch'. rewrite lookup_insert. case_decide; [done|].
    intros Hch' Hid. by apply (Huniq0 s' ch').
  - intros Hch. destruct (Hwf _ _ Hch) as [Hlt Huniq]. split; [done|].
    intros s' ch'. rewrite lookup_insert. case_decide.
    + intros Hch' Hid. simplify_eq. cbn in Hid.
      by apply (Huniq _ ch0).
    + by apply Huniq.
Qed.

Lemma get_channels_wf cfg calls p :
  pool_wf p -> pool_wf (get_channels cfg calls p).2.
Proof.
  revert p. induction calls as [|[i now] calls IH]; intros p Hwf; [done|].
  cbn. pose proof (get_channel_wf cfg i now p Hwf) as H1.
  destruct (get_channel cfg i now p) as [c p1]. specialize (IH p1 H1).
  by destruct (get_channels cfg calls p1) as [chs p2].
Qed.

(** A retired channel stays retired, and is not the one handed out. *)
Lemma get_channel_retired cfg i now p k :
  retired k p ->
  channel_id (get_channel cfg i now p).1 <> k /\
  retired k (get_channel cfg i now p).2.
Proof.
  intros [Hlt Hnot]. unfold get_channel.
  assert (Hopen : channel_id (open_channel (slot_of cfg i) now p).1 <> k /\
                  retired k (open_channel (slot_of cfg i) now p).2).
  { cbn. split; [lia|]. split; [cbn; lia|]. intros s ch. cbn.
    rewrite lookup_insert. case_decide.
    - intros Hch. simplify_eq. cbn. lia.
    - apply Hnot. }
  destruct (slots p !! slot_of cfg i) as [ch0|] eqn:H0; [|done].
  destruct (expired cfg now ch0); [done|].
  cbn. split; [by eapply Hnot|]. split; [done|]. intros s ch. cbn.
  rewrite lookup_insert. case_decide.
  - intros Hch. simplify_eq. cbn. by eapply Hnot.
  - apply Hnot.
Qed.

Lemma get_channels_retired cfg calls p k :
  retired k p ->
  Forall (fun c => channel_id c <> k) (get_channels cfg calls p).1.
Proof.
  revert p. induction calls as [|[i now] calls IH]; intros p Hret; [by constructor|].
  cbn. destruct (get_channel_retired cfg i now p k Hret) as [Hne H1].
  destruct (get_channel cfg i now p) as [c p1]. specialize (IH p1 H1).
  destruct (get_channels cfg calls p1) as [chs p2]. by constructor.
Qed.

(** Serving a call from a slot whose channel is expired retires it. *)
Lemma get_channel_expired cfg i now p ch :
  pool_wf p -> slots p !! slot_of cfg i = Some ch -> expired cfg now ch = true ->
  get_channel cfg i now p = open_channel (slot_of cfg i) now p /\
  retired (channel_id ch) (get_channel cfg i now p).2.
Proof.
  intros Hwf Hch Hexp. unfold get_channel. rewrite Hch, Hexp.
  split; [done|]. destruct (Hwf _ _ Hch) as [Hlt Huniq].
  split; [cbn; lia|]. intros s ch'. cbn. rewrite lookup_insert. case_decide as Hs.
  - intros H. simplify_eq. cbn. lia.
  - intros H Hid. apply Hs. symmetry. by apply (Huniq s ch').
Qed.

(** C9: in every state the pool reaches, a channel that is past its age limit
    or its idle timeout at the time of a call is not the channel handed out
    by that call; when the call is served from the slot of such a channel,
    the channel handed out is newly opened and takes over the slot, the
    expired channel is in no slot afterwards, and no later call is handed
    it. *)
Theorem C9_expired_channel_never_reused cfg (history : list (nat * Z)) :
  let p := (get_channels cfg history empty_pool).2 in
  (forall i now s ch,
     slots p !! s = Some ch -> expired cfg now ch = true ->
     channel_id (get_channel cfg i now p).1 <> channel_id ch)
  /\
  (forall i now ch,
     slots p !! slot_of cfg i = Some ch -> expired cfg now ch = true ->
     let c := (get_channel cfg i now p).1 in
     let p' := (get_channel cfg i now p).2 in
     c = {| channel_id := channels_created p; creation_time := now;
            last_used_time := now |} /\
     slots p' !! slot_of cfg i = Some c /\
     (forall s ch', slots p' !! s = Some ch' -> channel_id ch' <> channel_id ch) /\
     forall calls,
       Forall (fun c' => channel_id c' <> channel_id ch)
              (get_channels cfg calls p').1).
Proof.
  intros p.
  assert (Hwf : pool_wf p) by apply get_channels_wf, empty_pool_wf.
  split.
  - intros i now s ch Hch Hexp. destruct (Hwf _ _ Hch) as [Hlt Huniq].
    unfold get_channel.
    destruct (slots p !! slot_of cfg i) as [ch0|] eqn:H0; [|cbn; lia].
    destruct (expired cfg now ch0) eqn:Hexp0; [cbn; lia|].
    cbn. intros Hid. assert (slot_of cfg i = s) by by apply (Huniq _ ch0).
    simplify_eq. congruence.
  - intros i now ch Hch Hexp c p'.
    destruct (get_channel_expired cfg i now p ch Hwf Hch Hexp) as [Heq Hret].
    subst c p'. split; [by rewrite Heq|]. split.
    + rewrite Heq. cbn. by rewrite lookup_insert_eq.
    + split; [apply Hret|]. intros calls. by apply get_channels_retired.
Qed.

Lemma C9_expired_channel_never_reused_witness :
  channel_id
    (get_channel {| pool_size := 2; age_limit := 30000; idle_timeout := 5000 |}
       2%nat 6000
       (get_channels {| pool_size := 2; age_limit := 30000; idle_timeout := 5000 |}
          [(0%nat, 0); (1%nat, 10)] empty_pool).2).1 <> 0%nat /\
  Forall (fun c' => channel_id c' <> 0%nat)
    (get_channels {| pool_size := 2; age_limit := 30000; idle_timeout := 5000 |}
       [(4%nat, 6001); (6%nat, 6002); (5%nat, 6003)]
       (get_channel {| pool_size := 2; age_limit := 30000; idle_timeout := 5000 |}
          2%nat 6000
          (get_channels {| pool_size := 2; age_limit := 30000; idle_timeout := 5000 |}
             [(0%nat, 0); (1%nat, 10)] empty_pool).2).2).1.
Proof.
  destruct (C9_expired_channel_never_reused
              {| pool_size := 2; age_limit := 30000; idle_timeout := 5000 |}
              [(0%nat, 0); (1%nat, 10)])
    as [Hnot Hrepl].
  split.
  - apply (Hnot 2%nat 6000 0%nat
             {| channel_id := 0; creation_time := 0; last_used_time := 0 |});
      by vm_compute.
  - apply (Hrepl 2%nat 6000
             {| channel_id := 0; creation_time := 0; last_used_time := 0 |});
      by vm_compute.
Defined.

End PooledChannels.

(* ===================================================================== *)
(** * Lifetimes of tracked values: safety, framing and pairing *)
(* ===================================================================== *)

Section ValueLifetimes.
Import MemTracker LRUCacheValue.

Implicit Types (t mt vmt : tracker_id) (tr : Trace) (this v : LRUCacheValueBase).
Implicit Types (m : gmap entry_id LRUCacheValueBase) (h : Heap) (o : Op).

Local Arguments set_tracking_bytes : simpl never.
Local Arguments destroy : simpl never.

Lemma step_heap_ok o h h' : step o h = Some h' -> heap_ok h -> heap_ok h'.
Proof.
  destruct o as [e | e tb p vtb q | e]; cbn.
  - destruct (live h !! e) eqn:He; [discriminate|].
    intros H; injection H as <-. intros Hok e' v. cbn.
    rewrite lookup_insert. case_decide.
    + intros Hv. simplify_eq. intros Hpos. cbn in Hpos. lia.
    + apply Hok.
  - destruct (live h !! e) as [this|] eqn:He; [|discriminate]. cbn.
    destruct (set_tracking_bytes tb p vtb q this (trace h)) as [[v tr']|] eqn:Hset;
      cbn; [|discriminate].
    intros H; injection H as <-. intros Hok e' v'. cbn.
    apply set_tracking_bytes_inv in Hset as (mt & vmt & -> & -> & -> & ->).
    rewrite lookup_insert. case_decide.
    + intros Hv. simplify_eq. intros _. cbn. by split; eexists.
    + apply Hok.
  - destruct (live h !! e) as [this|] eqn:He; [|discriminate]. cbn.
    destruct (destroy this (trace h)) as [tr'|] eqn:Hd; cbn; [|discriminate].
    intros H; injection H as <-. intros Hok e' v'. cbn.
    intros [_ Hv]%lookup_delete_Some. by eapply Hok.
Qed.

Lemma run_heap_ok ops h h' : run ops h = Some h' -> heap_ok h -> heap_ok h'.
Proof.
  revert h. induction ops as [|o ops IH]; intros h; cbn.
  - intros H; by injection H as <-.
  - destruct (step o h) as [h1|] eqn:Hstep; [|discriminate]. cbn.
    intros Hrun Hok. eapply IH; [done|]. by eapply step_heap_ok.
Qed.

Lemma destroy_defined v tr : value_ok v -> is_Some (destroy v tr).
Proof.
  intros Hok. unfold destroy, release.
  destruct (0 <? _tracking_bytes v)%N eqn:Hpos; [|by eexists].
  apply N.ltb_lt in Hpos. destruct (Hok Hpos) as [[mt ->] [vmt ->]]. by eexists.
Qed.

(** In a heap built up from nothing, the calls that are defined are exactly:
    constructing a value that is not live, [set_tracking_bytes] on a live
    value with two non-null trackers, and destroying a live value.  The
    destructor of a live value never reaches a null tracker, whether or not
    [set_tracking_bytes] was ever called on it. *)
Theorem step_defined_iff ops tr0 h e :
  run ops {| live := ∅; trace := tr0 |} = Some h ->
  (is_Some (step (Construct e) h) <-> live h !! e = None) /\
  (forall tb p vtb q,
     is_Some (step (SetTrackingBytes e tb p vtb q) h)
     <-> is_Some (live h !! e) /\ is_Some p /\ is_Some q) /\
  (is_Some (step (Destroy e) h) <-> is_Some (live h !! e)).
Proof.
  intros Hrun.
  assert (Hok : heap_ok h).
  { eapply run_heap_ok; [done|]. intros e' v. cbn. by rewrite lookup_empty. }
  split; [|split].
  - cbn. destruct (live h !! e).
    + split; [intros [? ?]; discriminate | discriminate].
    + split; [done | intros _; by eexists].
  - intros tb p vtb q. cbn.
    destruct (live h !! e) as [this|]; cbn.
    + unfold set_tracking_bytes, consume.
      destruct p as [mt|], q as [vmt|]; cbn.
      * split; [intros _; repeat split; by eexists | intros _; by eexists].
      * split; [intros [? ?]; discriminate | intros (_ & _ & [? ?]); discriminate].
      * split; [intros [? ?]; discriminate | intros (_ & [? ?] & _); discriminate].
      * split; [intros [? ?]; discriminate | intros (_ & [? ?] & _); discriminate].
    + split; [intros [? ?]; discriminate | intros ([? ?] & _); discriminate].
  - cbn. destruct (live h !! e) as [this|] eqn:He; cbn.
    + destruct (destroy_defined this (trace h) (Hok e this He)) as [tr' ->].
      cbn. split; intros _; by eexists.
    + split; intros [? ?]; discriminate.
Qed.

Lemma step_defined_iff_witness :
  is_Some (step (Destroy 0%nat)
             {| live := {[ 0%nat := new_value ]}; trace := [] |}).
Proof.
  apply (proj2 (proj2 (step_defined_iff [Construct 0%nat] [] _ 0%nat eq_refl))).
  by eexists.
Defined.

Lemma step_surplus_mono o h h' t :
  step o h = Some h' -> surplus t h <= surplus t h'.
Proof.
  unfold surplus. destruct o as [e | e tb p vtb q | e]; cbn.
  - destruct (live h !! e) eqn:He; [discriminate|].
    intros H; injection H as <-. cbn.
    rewrite owed_insert_fresh, releasable_new_value by done. lia.
  - destruct (live h !! e) as [this|] eqn:He; [|discriminate]. cbn.
    destruct (set_tracking_bytes tb p vtb q this (trace h)) as [[v tr']|] eqn:Hset;
      cbn; [|discriminate].
    intros H; injection H as <-. cbn.
    apply set_tracking_bytes_inv in Hset as (mt & vmt & -> & -> & -> & ->).
    rewrite (owed_insert_live t e this) by done. rewrite set_consumption.
    pose proof (releasable_le_consumed t tb mt vtb vmt).
    pose proof (releasable_nonneg t this). lia.
  - destruct (live h !! e) as [this|] eqn:He; [|discriminate]. cbn.
    destruct (destroy this (trace h)) as [tr'|] eqn:Hd; cbn; [|discriminate].
    intros H; injection H as <-. cbn.
    rewrite (destroy_consumption t this _ _ Hd), (owed_delete t e this (live h) He).
    lia.
Qed.

(** Whatever the calls, destruction never gives back more than was consumed
    for the values: what a tracker holds beyond the bytes its live values will
    release never shrinks, so between two moments without live values no
    tracker ends below where it started. *)
Theorem run_never_over_releases ops h h' t :
  run ops h = Some h' ->
  surplus t h <= surplus t h' /\
  (live h = ∅ -> live h' = ∅ ->
   consumption t (trace h) <= consumption t (trace h')).
Proof.
  intros Hrun.
  assert (Hmono : surplus t h <= surplus t h').
  { revert h Hrun. induction ops as [|o ops IH]; intros h; cbn.
    - intros H; injection H as <-. lia.
    - destruct (step o h) as [h1|] eqn:Hstep; [|discriminate]. cbn.
      intros Hrun. specialize (IH h1 Hrun).
      pose proof (step_surplus_mono o h h1 t Hstep). lia. }
  split; [done|]. intros H0 H1. unfold surplus in Hmono.
  rewrite H0, H1, !owed_empty in Hmono. lia.
Qed.

Lemma run_never_over_releases_witness :
  consumption 1%nat [] <=
  consumption 1%nat [Release 2%nat 7; Release 1%nat 3; Consume 2%nat 7;
                     Consume 1%nat 3; Consume 1%nat 9; Consume 1%nat 0].
Proof.
  refine (proj2 (run_never_over_releases
           [Construct 0%nat; SetTrackingBytes 0%nat 0 (Some 1%nat) 9 (Some 1%nat);
            SetTrackingBytes 0%nat 3 (Some 1%nat) 7 (Some 2%nat); Destroy 0%nat]
           {| live := ∅; trace := [] |}
           {| live := ∅;
              trace := [Release 2%nat 7; Release 1%nat 3; Consume 2%nat 7;
                        Consume 1%nat 3; Consume 1%nat 9; Consume 1%nat 0] |}
           1%nat _) _ _).
  - vm_compute. reflexivity.
  - reflexivity.
  - reflexivity.
Defined.

Lemma releasable_not_refers t v : ~ refers t v -> releasable t v = 0.
Proof.
  unfold refers, releasable. intros Hno.
  destruct (0 <? _tracking_bytes v)%N; [|done].
  repeat case_decide; try lia; tauto.
Qed.

Lemma step_frame o h h' t :
  step o h = Some h' -> ~ mentions t o ->
  (forall e v, live h !! e = Some v -> ~ refers t v) ->
  consumption t (trace h') = consumption t (trace h) /\
  (forall e v, live h' !! e = Some v -> ~ refers t v).
Proof.
  destruct o as [e | e tb p vtb q | e]; cbn.
  - destruct (live h !! e) eqn:He; [discriminate|].
    intros H; injection H as <-. intros _ Hno. cbn. split; [done|].
    intros e' v. rewrite lookup_insert. case_decide; [|apply Hno].
    intros Hv. simplify_eq. by intros [? | ?].
  - destruct (live h !! e) as [this|] eqn:He; [|discriminate]. cbn.
    destruct (set_tracking_bytes tb p vtb q this (trace h)) as [[v tr']|] eqn:Hset;
      cbn; [|discriminate].
    intros H; injection H as <-. intros Hnm Hno. cbn.
    apply set_tracking_bytes_inv in Hset as (mt & vmt & -> & -> & -> & ->).
    split.
    + rewrite set_consumption. repeat case_decide; simplify_eq; try lia;
        exfalso; apply Hnm; auto.
    + intros e' v. rewrite lookup_insert. case_decide; [|apply Hno].
      intros Hv. simplify_eq. exact Hnm.
  - destruct (live h !! e) as [this|] eqn:He; [|discriminate]. cbn.
    destruct (destroy this (trace h)) as [tr'|] eqn:Hd; cbn; [|discriminate].
    intros H; injection H as <-. intros _ Hno. cbn. split.
    + rewrite (destroy_consumption t this _ _ Hd).
      rewrite (releasable_not_refers t this (Hno e this He)). lia.
    + intros e' v [_ Hv]%lookup_delete_Some. by eapply Hno.
Qed.

(** A tracker that no live value holds and that no [set_tracking_bytes] call
    is given keeps its consumption through the whole sequence, and is still
    held by no live value afterwards. *)
Theorem run_frame ops h h' t :
  run ops h = Some h' ->
  Forall (fun o => ~ mentions t o) ops ->
  (forall e v, live h !! e = Some v -> ~ refers t v) ->
  consumption t (trace h') = consumption t (trace h) /\
  (forall e v, live h' !! e = Some v -> ~ refers t v).
Proof.
  intros Hrun Hall. revert h Hrun.
  induction Hall as [|o ops Ho _ IH]; intros h; cbn.
  - intros H; injection H as <-. done.
  - destruct (step o h) as [h1|] eqn:Hstep; [|discriminate]. cbn.
    intros Hrun Hno.
    destruct (step_frame o h h1 t Hstep Ho Hno) as [Hc Hno1].
    destruct (IH h1 Hrun Hno1) as [Hc' Hno']. split; [congruence | done].
Qed.

Lemma run_frame_witness :
  consumption 3%nat [Release 2%nat 7; Release 1%nat 3;
                     Consume 2%nat 7; Consume 1%nat 3; Consume 3%nat 50]
  = consumption 3%nat [Consume 3%nat 50].
Proof.
  refine (proj1 (run_frame
           [Construct 0%nat; SetTrackingBytes 0%nat 3 (Some 1%nat) 7 (Some 2%nat);
            Destroy 0%nat]
           {| live := ∅; trace := [Consume 3%nat 50] |}
           {| live := ∅;
              trace := [Release 2%nat 7; Release 1%nat 3;
                        Consume 2%nat 7; Consume 1%nat 3; Consume 3%nat 50] |}
           3%nat _ _ _)).
  - vm_compute. reflexivity.
  - constructor; [cbn; tauto|].
    constructor; [cbn; intros [H | H]; discriminate|].
    constructor; [cbn; tauto|]. constructor.
  - intros e v. cbn. by rewrite lookup_empty.
Defined.

(** While values are inserted with a positive [tracking_bytes] and evicted,
    every tracker holds, at each moment, its baseline plus exactly the bytes
    that the values live at that moment will release on it. *)
Theorem cache_consumption_tracks_live cs h h' t :
  Forall positive_tracking cs -> live h = ∅ -> run_cache cs h = Some h' ->
  consumption t (trace h') = consumption t (trace h) + owed t (live h').
Proof.
  intros Hall H0 Hrun.
  pose proof (run_cache_surplus cs h h' t Hall Hrun) as Hs.
  unfold surplus in Hs. rewrite H0, owed_empty in Hs. lia.
Qed.

Lemma cache_consumption_tracks_live_witness :
  consumption 2%nat [Release 2%nat 10; Release 1%nat 8;
                     Consume 2%nat 4096; Consume 1%nat 64;
                     Consume 2%nat 10; Consume 1%nat 8]
  = consumption 2%nat []
    + owed 2%nat {[ 1%nat := {| _tracking_bytes := 64;
                               _value_tracking_bytes := 4096;
                               _mem_tracker := Some 1%nat;
                               _value_mem_tracker := Some 2%nat |} ]}.
Proof.
  refine (cache_consumption_tracks_live
            [Insert 0%nat 8 1%nat 10 2%nat; Insert 1%nat 64 1%nat 4096 2%nat;
             Evict 0%nat]
            {| live := ∅; trace := [] |}
            {| live := {[ 1%nat := {| _tracking_bytes := 64;
                                     _value_tracking_bytes := 4096;
                                     _mem_tracker := Some 1%nat;
                                     _value_mem_tracker := Some 2%nat |} ]};
               trace := [Release 2%nat 10; Release 1%nat 8;
                         Consume 2%nat 4096; Consume 1%nat 64;
                         Consume 2%nat 10; Consume 1%nat 8] |}
            2%nat _ _ _).
  - repeat constructor; cbn; lia.
  - reflexivity.
  - vm_compute. reflexivity.
Defined.

Lemma outstanding_empty : outstanding ∅ = [].
Proof. unfold outstanding. by rewrite map_to_list_empty. Qed.

Lemma outstanding_insert_fresh e v m :
  m !! e = None -> outstanding (<[e := v]> m) ≡ₚ tracked v ++ outstanding m.
Proof.
  intros Hfresh. unfold outstanding.
  by rewrite map_to_list_insert, bind_cons by done.
Qed.

Lemma outstanding_delete e v m :
  m !! e = Some v -> outstanding m ≡ₚ tracked v ++ outstanding (delete e m).
Proof.
  intros Hlive. unfold outstanding.
  by rewrite <- (map_to_list_delete m e v Hlive), bind_cons.
Qed.

Lemma consumed_app tr1 tr2 : consumed (tr1 ++ tr2) = consumed tr1 ++ consumed tr2.
Proof. apply omap_app. Qed.

Lemma released_app tr1 tr2 : released (tr1 ++ tr2) = released tr1 ++ released tr2.
Proof. apply omap_app. Qed.

Lemma cache_op_pairing c h h' :
  positive_tracking c -> run (ops_of c) h = Some h' ->
  exists calls,
    trace h' = calls ++ trace h /\
    consumed calls ++ outstanding (live h)
    ≡ₚ released calls ++ outstanding (live h').
Proof.
  destruct c as [e tb mt vtb vmt | e]; cbn.
  - intros Hpos. destruct (live h !! e) eqn:He; [discriminate|]. cbn.
    rewrite lookup_insert_eq. cbn. intros H; injection H as <-. cbn.
    exists [Consume vmt vtb; Consume mt tb]. split; [done|].
    rewrite insert_insert_eq, outstanding_insert_fresh by done.
    unfold tracked. cbn. by rewrite (proj2 (N.ltb_lt _ _) Hpos).
  - intros _. destruct (live h !! e) as [this|] eqn:He; [|discriminate]. cbn.
    destruct (destroy this (trace h)) as [tr'|] eqn:Hd; cbn; [|discriminate].
    intros H; injection H as <-. cbn.
    pose proof (outstanding_delete e this (live h) He) as Hout.
    unfold tracked in Hout.
    apply destroy_inv in Hd as [[Hz ->] | [Hpos (mt & vmt & Hm & Hv & ->)]].
    + exists []. split; [done|]. by rewrite Hz in Hout.
    + exists [Release vmt (_value_tracking_bytes this);
              Release mt (_tracking_bytes this)].
      split; [done|].
      by rewrite (proj2 (N.ltb_lt _ _) Hpos), Hm, Hv in Hout.
Qed.

(** Over insertions with a positive [tracking_bytes] and evictions, the calls
    are only added to the trackers' history, and every consume is answered by
    one release with the same tracker and the same byte count, except for the
    consumes of the values still live: counted with multiplicity, the consumes
    made and the releases owed before are the releases made and the releases
    owed after.  Between two moments without live values the consumes and the
    releases made are the same calls up to order. *)
Theorem cache_releases_pair_with_consumes cs h h' :
  Forall positive_tracking cs -> run_cache cs h = Some h' ->
  exists calls,
    trace h' = calls ++ trace h /\
    consumed calls ++ outstanding (live h)
    ≡ₚ released calls ++ outstanding (live h') /\
    (live h = ∅ -> live h' = ∅ -> consumed calls ≡ₚ released calls).
Proof.
  unfold run_cache. intros Hall Hrun.
  assert (Hpair : exists calls,
            trace h' = calls ++ trace h /\
            consumed calls ++ outstanding (live h)
            ≡ₚ released calls ++ outstanding (live h')).
  { revert h Hrun. induction Hall as [|c cs Hc _ IH]; intros h; cbn.
    - intros H; injection H as <-. by exists [].
    - rewrite run_app.
      destruct (run (ops_of c) h) as [h1|] eqn:H1; [|discriminate]. cbn.
      intros H2.
      destruct (cache_op_pairing c h h1 Hc H1) as (d1 & Ht1 & Hp1).
      destruct (IH h1 H2) as (d2 & Ht2 & Hp2).
      exists (d2 ++ d1). split; [by rewrite Ht2, Ht1, app_assoc|].
      rewrite consumed_app, released_app, <- !app_assoc.
      rewrite Hp1.
      rewrite (Permutation_app_swap_app (consumed d2)), Hp2.
      by rewrite (Permutation_app_swap_app (released d1)). }
  destruct Hpair as (calls & Ht & Hp). exists calls.
  split; [done|]. split; [done|]. intros H0 H1.
  by rewrite H0, H1, outstanding_empty, !app_nil_r in Hp.
Qed.

Lemma cache_releases_pair_with_consumes_witness :
  exists calls,
    [Release 2%nat 4096; Release 1%nat 64; Release 2%nat 10; Release 1%nat 8;
     Consume 2%nat 4096; Consume 1%nat 64; Consume 2%nat 10; Consume 1%nat 8]
    = calls ++ [] /\
    consumed calls ≡ₚ released calls.
Proof.
  destruct (cache_releases_pair_with_consumes
              [Insert 0%nat 8 1%nat 10 2%nat; Insert 1%nat 64 1%nat 4096 2%nat;
               Evict 0%nat; Evict 1%nat]
              {| live := ∅; trace := [] |}
              {| live := ∅;
                 trace := [Release 2%nat 4096; Release 1%nat 64;
                           Release 2%nat 10; Release 1%nat 8;
                           Consume 2%nat 4096; Consume 1%nat 64;
                           Consume 2%nat 10; Consume 1%nat 8] |})
    as (calls & Ht & _ & Hp).
  - repeat constructor; cbn; lia.
  - vm_compute. reflexivity.
  - exists calls. split; [exact Ht | exact (Hp eq_refl eq_refl)].
Defined.

End ValueLifetimes.

(* ===================================================================== *)
(** * The configuration table as a whole *)
(* ===================================================================== *)

Section ConfigDeclarations.
Import Config.
Local Open Scope string_scope.

(** Every name is declared once: looking a name up finds a field exactly
    when the table declares a field of that name, and it finds that field.  A
    name that is not declared is not found. *)
Theorem lookup_field_declared n f :
  lookup_field n = Some f <-> In f cloud_config /\ name f = n.
Proof.
  split.
  - intros Hfind. apply find_some in Hfind as [Hin Hname].
    split; [done | by apply String.eqb_eq].
  - intros [Hin <-]. unfold cloud_config in Hin. cbn [In] in Hin.
    repeat (destruct Hin as [<- | Hin]; [vm_compute; reflexivity|]).
    destruct Hin.
Qed.

Lemma lookup_field_declared_witness :
  lookup_field "tablet_cache_capacity"
  = Some (field DEFINE_Int64 "tablet_cache_capacity" "100000")
  /\ lookup_field "tablet_cache_size" = None.
Proof.
  split.
  - apply (proj2 (lookup_field_declared "tablet_cache_capacity"
                    (field DEFINE_Int64 "tablet_cache_capacity" "100000"))).
    split; [apply tablet_cache_capacity_declared | reflexivity].
  - destruct (lookup_field "tablet_cache_size") as [f|] eqn:Hf; [|reflexivity].
    destruct (proj1 (lookup_field_declared "tablet_cache_size" f) Hf) as [Hin Hn].
    exfalso. clear Hf. unfold cloud_config in Hin. cbn [In] in Hin.
    repeat (destruct Hin as [<- | Hin]; [discriminate Hn|]).
    destruct Hin.
Defined.

Lemma cloud_config_defaults :
  forallb default_well_typed cloud_config = true.
Proof. vm_compute. reflexivity. Qed.

(** Every default of the table is a value of the type its macro declares:
    a boolean default is [true] or [false], an integer default is a decimal
    number within the range of its 32-bit or 64-bit type, and a double default
    is a decimal fraction. *)
Theorem defaults_well_typed f :
  In f cloud_config ->
  match macro f with
  | DEFINE_String | DEFINE_mString => True
  | DEFINE_Bool | DEFINE_mBool =>
      default_value f = "true" \/ default_value f = "false"
  | DEFINE_mInt32 =>
      exists z, parse_int (default_value f) = Some z /\ (- 2 ^ 31 <= z < 2 ^ 31)%Z
  | DEFINE_Int64 | DEFINE_mInt64 =>
      exists z, parse_int (default_value f) = Some z /\ (- 2 ^ 63 <= z < 2 ^ 63)%Z
  | DEFINE_mDouble => is_decimal (default_value f) = true
  end.
Proof.
  intros Hin. pose proof cloud_config_defaults as Hall.
  rewrite forallb_forall in Hall. specialize (Hall f Hin).
  unfold default_well_typed in Hall.
  destruct (macro f); try done.
  1, 2: apply orb_true_iff in Hall as [H | H]; apply String.eqb_eq in H; auto.
  all: destruct (parse_int (default_value f)) as [z|]; [|discriminate];
    apply andb_true_iff in Hall as [Hlo Hhi];
    apply Z.leb_le in Hlo; apply Z.ltb_lt in Hhi; by exists z.
Qed.

Lemma defaults_well_typed_witness :
  exists z, parse_int "100000" = Some z /\ (- 2 ^ 63 <= z < 2 ^ 63)%Z.
Proof.
  exact (defaults_well_typed (field DEFINE_Int64 "tablet_cache_capacity" "100000")
           tablet_cache_capacity_declared).
Defined.

Lemma cloud_config_restart_only :
  forallb (fun f => Bool.eqb (negb (is_mutable (macro f)))
                      (existsb (String.eqb (name f)) restart_only))
          cloud_config = true.
Proof. vm_compute. reflexivity. Qed.

(** The fields that cannot be changed at runtime are the seven declared
    without the [m]: deploy_mode, meta_service_use_load_balancer,
    meta_service_connection_pooled, tablet_cache_capacity,
    tablet_cache_shards, enable_cloud_txn_lazy_commit and
    enable_check_storage_vault; every other field of the table is mutable. *)
Theorem restart_only_fields f :
  In f cloud_config ->
  (is_mutable (macro f) = false <-> In (name f) restart_only).
Proof.
  intros Hin. pose proof cloud_config_restart_only as Hall.
  rewrite forallb_forall in Hall. specialize (Hall f Hin).
  apply Bool.eqb_prop in Hall.
  assert (Hex : existsb (String.eqb (name f)) restart_only = true
                <-> In (name f) restart_only).
  { rewrite existsb_exists. split.
    - intros (n & Hn & Heq). apply String.eqb_eq in Heq. by rewrite Heq.
    - intros Hn. exists (name f). split; [done | apply String.eqb_refl]. }
  rewrite <- Hex, <- Hall. by destruct (is_mutable (macro f)).
Qed.

Lemma restart_only_fields_witness :
  is_mutable DEFINE_Int64 = false <-> In "tablet_cache_capacity" restart_only.
Proof.
  exact (restart_only_fields (field DEFINE_Int64 "tablet_cache_capacity" "100000")
           tablet_cache_capacity_declared).
Defined.

End ConfigDeclarations.
